(** * The sample highlighter of rscarson.github.io

    A shallow embedding of [js/help.js] (the [encode] highlighter with its
    [replaceAt] helper) and of the sample registry module
    ([FormatterInstances], [getAllFormattedSamples], [getSampleHTML]).

    JavaScript strings are sequences of UTF-16 code units; they are modelled
    as [list N].  The parts of the ECMAScript library the code calls
    ([String.prototype.trim], [substring], [replace], [padStart],
    [Array.prototype.join], [RegExp.prototype.exec]) are written out from the
    language specification, restricted to what the code uses.

    [setSample], which assigns the value of [encode] to the [innerHTML] of
    an element, is left out: the DOM parses what is assigned to it, and no
    model of that is given here. *)

From Stdlib Require Import NArith Ascii String Lia.
From stdpp Require Import base list strings gmap.

Local Open Scope nat_scope.

(** ** JavaScript strings *)

Module JS.

Abbreviation jsstring := (list N).

(** An ASCII literal as a JavaScript string. *)
Definition js (s : string) : jsstring :=
  map N_of_ascii (list_ascii_of_string s).

Definition quote : N := 34%N.      (* the double quote character *)
Definition dollar : N := 36%N.
Definition space : N := 32%N.

Definition code_eqb (a b : N) : bool := N.eqb a b.

(** WhiteSpace and LineTerminator code points, the ones [trim] strips. *)
Definition is_line_terminator (c : N) : bool :=
  (c =? 10)%N || (c =? 13)%N || (c =? 8232)%N || (c =? 8233)%N.

Definition is_white_space (c : N) : bool :=
  (c =? 9)%N || (c =? 11)%N || (c =? 12)%N || (c =? 32)%N || (c =? 160)%N
  || (c =? 5760)%N || ((8192 <=? c)%N && (c <=? 8202)%N)
  || (c =? 8239)%N || (c =? 8287)%N || (c =? 12288)%N || (c =? 65279)%N.

Definition is_trimmable (c : N) : bool :=
  is_white_space c || is_line_terminator c.

Fixpoint trimStart (s : jsstring) : jsstring :=
  match s with
  | c :: s' => if is_trimmable c then trimStart s' else s
  | [] => []
  end.

Definition trimEnd (s : jsstring) : jsstring :=
  rev (trimStart (rev s)).

(** [str.trim()] *)
Definition trim (s : jsstring) : jsstring := trimEnd (trimStart s).

(** [str.substring(from)] and [str.substring(0, to)]; both clamp to the
    length of the string. *)
Definition substring_from (s : jsstring) (from : nat) : jsstring := drop from s.
Definition substring_to (s : jsstring) (to : nat) : jsstring := take to s.

(** [''.padStart(n, ' ')] *)
Definition padStart_empty (n : nat) : jsstring := replicate n space.

Fixpoint is_prefix (p s : jsstring) : bool :=
  match p, s with
  | [], _ => true
  | x :: p', y :: s' => code_eqb x y && is_prefix p' s'
  | _ :: _, [] => false
  end.

(** [StringIndexOf(hay, needle, 0)]: the lowest index at which [needle]
    occurs. *)
Fixpoint indexOf (needle hay : jsstring) : option nat :=
  if is_prefix needle hay then Some 0
  else match hay with
       | [] => None
       | _ :: hay' => S <$> indexOf needle hay'
       end.

(** [GetSubstitution] for a string pattern: there are no captures, so of the
    dollar forms only [$$], [$&], [$`] and [$'] are substituted; a dollar in
    front of anything else (a digit, [<], the end) stands for itself. *)
Fixpoint getSubstitution (matched preceding following template : jsstring)
  : jsstring :=
  match template with
  | [] => []
  | c :: rest =>
      if code_eqb c dollar then
        match rest with
        | d :: rest' =>
            if code_eqb d dollar then
              dollar :: getSubstitution matched preceding following rest'
            else if code_eqb d 38%N then
              matched ++ getSubstitution matched preceding following rest'
            else if code_eqb d 96%N then
              preceding ++ getSubstitution matched preceding following rest'
            else if code_eqb d 39%N then
              following ++ getSubstitution matched preceding following rest'
            else c :: getSubstitution matched preceding following rest
        | [] => [c]
        end
      else c :: getSubstitution matched preceding following rest
  end.

(** [str.replace(search, replacement)] with both arguments strings: the
    first occurrence only, the replacement read as a template. *)
Definition replace (s search replacement : jsstring) : jsstring :=
  match indexOf search s with
  | None => s
  | Some position =>
      let preceding := take position s in
      let following := drop (position + length search) s in
      preceding ++ getSubstitution search preceding following replacement
                ++ following
  end.

(** [arr.join(sep)] on an array of strings, as the language defines it: the
    elements are appended from index 0 on, each one but the first behind a
    separator. *)
Fixpoint join_from (sep : jsstring) (k : nat) (R : jsstring)
    (arr : list jsstring) : jsstring :=
  match arr with
  | [] => R
  | element :: arr' =>
      let R := if Nat.eqb k 0 then R else R ++ sep in
      join_from sep (S k) (R ++ element) arr'
  end.

Definition join (sep : jsstring) (arr : list jsstring) : jsstring :=
  join_from sep 0 [] arr.


End JS.

Import JS.

(** ** Regular expressions

    The patterns of the highlighter use literal characters, character
    classes, the dot, sequencing and the quantifiers [*], [*?], [+] and [?];
    they have no groups, anchors or back references.  The matcher is the
    backtracking matcher of the language specification, written with
    continuations: a quantifier tries its alternatives in priority order and
    an iteration of a star that consumes nothing is rejected. *)

Module RegExp.

Inductive CharSet :=
  | Dot                              (* [.] *)
  | Lit (c : N)                      (* an escaped or plain character *)
  | Class (ranges : list (N * N)).   (* [[a-z0-9_]], members as ranges *)

Inductive Regex :=
  | Atom (cs : CharSet)
  | Seq (r1 r2 : Regex)
  | Star (greedy : bool) (r : Regex)
  | Plus (r : Regex)
  | Opt (r : Regex).

Record Flags := { global : bool; multiline : bool; dotAll : bool }.

Definition in_range (c : N) (lohi : N * N) : bool :=
  (fst lohi <=? c)%N && (c <=? snd lohi)%N.

Definition char_matches (fl : Flags) (cs : CharSet) (c : N) : bool :=
  match cs with
  | Dot => dotAll fl || negb (is_line_terminator c)
  | Lit d => code_eqb c d
  | Class ranges => existsb (in_range c) ranges
  end.

Definition Cont := jsstring -> option jsstring.

(** The iterations of [r*] on [s]; [mr] matches one [r].  Every iteration
    has to consume something, so [length s] iterations are enough. *)
Fixpoint star_loop (mr : jsstring -> Cont -> option jsstring)
    (greedy : bool) (k : Cont) (fuel : nat) (s : jsstring)
  : option jsstring :=
  match fuel with
  | 0 => k s
  | S fuel' =>
      let again :=
        mr s (fun s' => if length s' <? length s
                        then star_loop mr greedy k fuel' s' else None) in
      if greedy
      then match again with Some e => Some e | None => k s end
      else match k s with Some e => Some e | None => again end
  end.

(** [matcher fl r s k]: match [r] at the front of [s] and hand what is left
    to [k]; the answer is what is left of [s] behind the whole match. *)
Fixpoint matcher (fl : Flags) (r : Regex) (s : jsstring) (k : Cont)
  : option jsstring :=
  match r with
  | Atom cs =>
      match s with
      | c :: s' => if char_matches fl cs c then k s' else None
      | [] => None
      end
  | Seq r1 r2 => matcher fl r1 s (fun s' => matcher fl r2 s' k)
  | Star greedy r1 => star_loop (matcher fl r1) greedy k (length s) s
  | Plus r1 =>
      matcher fl r1 s
        (fun s' => star_loop (matcher fl r1) true k (length s') s')
  | Opt r1 =>
      match matcher fl r1 s k with Some e => Some e | None => k s end
  end.

(** A match object: [match.index] and [match[0]]. *)
Record Match := { index : nat; matched : jsstring }.

(** The scan of [RegExpBuiltinExec]: try the pattern at [i], then at [i+1],
    up to and including the end of the string. *)
Fixpoint search (fl : Flags) (r : Regex) (s : jsstring) (i : nat)
  : option Match :=
  match matcher fl r s Some with
  | Some rest => Some {| index := i; matched := take (length s - length rest) s |}
  | None =>
      match s with
      | [] => None
      | _ :: s' => search fl r s' (S i)
      end
  end.

(** A RegExp object: its pattern and flags, and the mutable [lastIndex]. *)
Record Object := { source : Regex; flags : Flags; lastIndex : nat }.

Definition set_lastIndex (o : Object) (i : nat) : Object :=
  {| source := source o; flags := flags o; lastIndex := i |}.

(** [RegExpBuiltinExec(R, S)] as a function of the object: the match (or
    null) and the object with its [lastIndex] updated.  Without the global
    flag the scan starts at 0 and [lastIndex] is left alone. *)
Definition builtinExec (o : Object) (S : jsstring) : option Match * Object :=
  let g := global (flags o) in
  let start := if g then lastIndex o else 0 in
  if length S <? start then (None, if g then set_lastIndex o 0 else o)
  else
    match search (flags o) (source o) (drop start S) start with
    | None => (None, if g then set_lastIndex o 0 else o)
    | Some m =>
        (Some m,
         if g then set_lastIndex o (index m + length (matched m)) else o)
    end.

(** The legacy static properties of the RegExp constructor
    ([RegExp.input], [RegExp.lastMatch], [RegExp.leftContext],
    [RegExp.rightContext]).  They belong to the realm, not to a RegExp
    object, and every successful [exec] overwrites them: they are given by
    the string that was searched and the match that was found.  The
    patterns here have no groups, so [RegExp.$1] to [RegExp.$9] and
    [RegExp.lastParen] stay empty. *)
Record Statics := { lastInput : jsstring; lastFound : Match }.

(** [UpdateLegacyRegExpStaticProperties]: nothing on a failed match. *)
Definition legacy_update (S : jsstring) (m : option Match) : option Statics :=
  match m with
  | Some m => Some {| lastInput := S; lastFound := m |}
  | None => None
  end.

Definition RegExp_leftContext (st : option Statics) : jsstring :=
  match st with
  | Some st => take (index (lastFound st)) (lastInput st)
  | None => []
  end.
Definition RegExp_rightContext (st : option Statics) : jsstring :=
  match st with
  | Some st =>
      drop (index (lastFound st) + length (matched (lastFound st)))
           (lastInput st)
  | None => []
  end.

End RegExp.

Import RegExp.

(** ** Program state and the monad of the embedding

    The code allocates RegExp objects and calls [exec] on them, which moves
    their [lastIndex] and overwrites the legacy statics of the RegExp
    constructor.  The state is the heap of RegExp objects, those statics
    ([None] as long as nothing has matched in the realm), and the document,
    which [encode] has no call on.  A computation ends with a value, with
    an exception, or out of fuel (a loop that was not seen to end). *)

Module St.

Record World := {
  heap : list RegExp.Object;
  statics : option RegExp.Statics;
  document : gmap jsstring jsstring;
}.

Inductive Outcome (A : Type) :=
  | Done (a : A)
  | Thrown
  | OutOfFuel.
Arguments Done {A} a.
Arguments Thrown {A}.
Arguments OutOfFuel {A}.

Definition M (A : Type) := World -> Outcome A * World.

Definition ret {A} (a : A) : M A := fun w => (Done a, w).

Definition bind {A B} (c : M A) (f : A -> M B) : M B :=
  fun w =>
    match c w with
    | (Done a, w') => f a w'
    | (Thrown, w') => (Thrown, w')
    | (OutOfFuel, w') => (OutOfFuel, w')
    end.

Definition out_of_fuel {A} : M A := fun w => (OutOfFuel, w).

Definition with_heap (w : World) (h : list RegExp.Object) : World :=
  {| heap := h; statics := statics w; document := document w |}.

(** The statics overwritten by [upd], left alone when there is none. *)
Definition update_statics (upd : option RegExp.Statics) (w : World) : World :=
  {| heap := heap w;
     statics := match upd with Some st => Some st | None => statics w end;
     document := document w |}.

(** [new RegExp(pattern, flags)]: a fresh object, [lastIndex] 0. *)
Definition new_RegExp (pattern : Regex) (fl : Flags) : M nat :=
  fun w =>
    (Done (length (heap w)),
     with_heap w (heap w ++ [{| source := pattern; flags := fl; lastIndex := 0 |}])).

(** [regexp.exec(str)] *)
Definition exec (regexp : nat) (str : jsstring) : M (option Match) :=
  fun w =>
    match heap w !! regexp with
    | None => (Thrown, w)
    | Some o =>
        let '(m, o') := builtinExec o str in
        (Done m,
         update_statics (legacy_update str m)
           (with_heap w (<[regexp := o']> (heap w))))
    end.

End St.

Import St.

Notation "'let*' x ':=' c 'in' k" := (St.bind c (fun x => k))
  (at level 10, x pattern, c at level 100, k at level 200).

(** ** help.js *)

Module Help.

Definition lit (a : ascii) : Regex := Atom (Lit (N_of_ascii a)).
Definition one (a : ascii) : N * N := (N_of_ascii a, N_of_ascii a).
Definition rng (a b : ascii) : N * N := (N_of_ascii a, N_of_ascii b).

Fixpoint seqs (r : Regex) (rs : list Regex) : Regex :=
  match rs with
  | [] => r
  | r' :: rs' => Seq r (seqs r' rs')
  end.

Definition flags_gm : Flags :=
  {| global := true; multiline := true; dotAll := false |}.
Definition flags_gms : Flags :=
  {| global := true; multiline := true; dotAll := true |}.

Definition word_class : list (N * N) :=
  [rng "0" "9"; rng "A" "Z"; rng "a" "z"; one "_"].

(** [\/\/.*] *)
Definition re_line_comment : Regex :=
  seqs (lit "/") [lit "/"; Star true (Atom Dot)].

(** [\/\*.*?\*\/] *)
Definition re_block_comment : Regex :=
  seqs (lit "/") [lit "*"; Star false (Atom Dot); lit "*"; lit "/"].

(** [0[xXbBoO]?[a-zA-Z0-9]+] *)
Definition re_radix : Regex :=
  seqs (lit "0")
    [Opt (Atom (Class [one "x"; one "X"; one "b"; one "B"; one "o"; one "O"]));
     Plus (Atom (Class [rng "a" "z"; rng "A" "Z"; rng "0" "9"]))].

(** [\@[0-9A-Za-z_]+] *)
Definition re_decorator : Regex :=
  seqs (lit "@") [Plus (Atom (Class word_class))].

(** [[0-9A-Za-z_]*\(] *)
Definition re_call_head : Regex :=
  seqs (Star true (Atom (Class word_class))) [lit "("].

(** [\)] *)
Definition re_close_paren : Regex := lit ")".

(** [\"?\'?[0-9A-Za-z\._]+[eE]?[\-\+]?[0-7]*\"?\'?] *)
Definition re_data : Regex :=
  seqs (Opt (Atom (Lit quote)))
    [Opt (lit "'");
     Plus (Atom (Class [rng "0" "9"; rng "A" "Z"; rng "a" "z"; one "."; one "_"]));
     Opt (Atom (Class [one "e"; one "E"]));
     Opt (Atom (Class [one "-"; one "+"]));
     Star true (Atom (Class [rng "0" "7"]));
     Opt (Atom (Lit quote));
     Opt (lit "'")].

(** A template literal with one hole, [before${match[0]}after]. *)
Record Template := { before : jsstring; after : jsstring }.

Definition fill (t : Template) (m : jsstring) : jsstring :=
  before t ++ m ++ after t.

(** [<span class="cls">] *)
Definition span_open (cls : string) : jsstring :=
  js "<span class=" ++ quote :: js cls ++ quote :: js ">".
Definition span_close : jsstring := js "</span>".

Definition tpl_span (cls : string) : Template :=
  {| before := span_open cls; after := span_close |}.
(** [<span class="function">${match[0]}]: the span is left open. *)
Definition tpl_call_head : Template :=
  {| before := span_open "function"; after := [] |}.
(** [${match[0]}</span>] *)
Definition tpl_close_paren : Template :=
  {| before := []; after := span_close |}.

Definition replaceAt (str search : jsstring) (index : nat)
    (replacement : jsstring) : jsstring :=
  substring_to str index ++ replace (substring_from str index) search replacement.

(** The body of each of the loops of [encode]. *)
Definition loop_body (t : Template) (m : Match) (str result : jsstring)
  : jsstring * jsstring :=
  let replacement := fill t (matched m) in
  let str := replaceAt str (matched m) (index m)
               (padStart_empty (length replacement)) in
  let result := replaceAt result (matched m) (index m) replacement in
  (str, result).

(** [while ((match = regexp.exec(str)) !== null) { ... }] *)
Fixpoint while_exec (fuel : nat) (regexp : nat) (t : Template)
    (str result : jsstring) : M (jsstring * jsstring) :=
  match fuel with
  | 0 => out_of_fuel
  | S fuel' =>
      let* m := exec regexp str in
      match m with
      | None => ret (str, result)
      | Some m =>
          let '(str, result) := loop_body t m str result in
          while_exec fuel' regexp t str result
      end
  end.

(** One rule: [regexp = new RegExp(...)] and its loop.  A match takes at
    least one character of the scan buffer that is not a blank, so the loop
    is given one round per character, and one for the final null. *)
Definition rule (pattern : Regex) (fl : Flags) (t : Template)
    (str result : jsstring) : M (jsstring * jsstring) :=
  let* regexp := new_RegExp pattern fl in
  while_exec (S (length str)) regexp t str result.

Definition encode (str : jsstring) : M jsstring :=
  let str := trim str in
  let result := str in
  let* (str, result) := rule re_line_comment flags_gm (tpl_span "comment") str result in
  let* (str, result) := rule re_block_comment flags_gms (tpl_span "comment") str result in
  let* (str, result) := rule re_radix flags_gm (tpl_span "radix") str result in
  let* (str, result) := rule re_decorator flags_gm (tpl_span "decorator") str result in
  let* (str, result) := rule re_call_head flags_gm tpl_call_head str result in
  let* (str, result) := rule re_close_paren flags_gm tpl_close_paren str result in
  let* (str, result) := rule re_data flags_gm (tpl_span "data") str result in
  ret result.

Definition empty_world : World :=
  {| heap := []; statics := None; document := ∅ |}.

(** The value [encode] returns, run from a state with nothing in it. *)
Definition encode_value (str : jsstring) : Outcome jsstring :=
  fst (encode str empty_world).

End Help.

Import Help.

(** ** The sample registry

    [FormatterInstances] is a plain object: a literal with the two formatter
    instances, to which the lookup function is then added as the property
    [get].  Its prototype is [Object.prototype], whose properties the [in]
    operator and property reads see as well. *)

Module Samples.

Inductive FormatterClass := LavendeuxFormatter | JavascriptFormatter.

Inductive Value :=
  | VUndefined
  | VFormatter (c : FormatterClass)   (* the instance made by [new c()] *)
  | VLookup                           (* the arrow function [name => ...] *)
  | VObjectPrototype                  (* what [__proto__] reads *)
  | VBuiltin (name : jsstring).       (* a function of [Object.prototype] *)

Definition Object_prototype : gmap jsstring Value :=
  list_to_map
    ((js "__proto__", VObjectPrototype) ::
     map (fun n => (js n, VBuiltin (js n)))
       ["constructor"; "hasOwnProperty"; "isPrototypeOf";
        "propertyIsEnumerable"; "toLocaleString"; "toString"; "valueOf";
        "__defineGetter__"; "__defineSetter__";
        "__lookupGetter__"; "__lookupSetter__"]%string).

(** [name in obj], for an object whose prototype is [Object.prototype]. *)
Definition has_property (obj : gmap jsstring Value) (name : jsstring) : bool :=
  match obj !! name with
  | Some _ => true
  | None => match Object_prototype !! name with
            | Some _ => true
            | None => false
            end
  end.

(** [obj[name]] *)
Definition get_property (obj : gmap jsstring Value) (name : jsstring) : Value :=
  match obj !! name with
  | Some v => v
  | None => default VUndefined (Object_prototype !! name)
  end.

Definition FormatterInstances_literal : gmap jsstring Value :=
  <[js "javascript" := VFormatter JavascriptFormatter]>
    (<[js "lavendeux" := VFormatter LavendeuxFormatter]> ∅).

(** The object after [FormatterInstances.get = ...]. *)
Definition FormatterInstances : gmap jsstring Value :=
  <[js "get" := VLookup]> FormatterInstances_literal.

(** [FormatterInstances.get] *)
Definition get (name : jsstring) : Value :=
  if has_property FormatterInstances name
  then get_property FormatterInstances name
  else get_property FormatterInstances (js "lavendeux").

(** [arr.map(f)] with a callback that may throw. *)
Fixpoint array_map {A B} (f : A -> Outcome B) (arr : list A)
  : Outcome (list B) :=
  match arr with
  | [] => Done []
  | x :: arr' =>
      match f x with
      | Done y =>
          match array_map f arr' with
          | Done ys => Done (y :: ys)
          | Thrown => Thrown
          | OutOfFuel => OutOfFuel
          end
      | Thrown => Thrown
      | OutOfFuel => OutOfFuel
      end
  end.

Section Registry.

(** [samples.json] and the [JSONSample] class of [sample.js] are not part of
    the sources at hand; they are parameters of the registry functions. *)
Variable JSON : Type.
Variable JSONSample : Type.
Variable sampleJSON : JSON.
Variable allFromJSON : JSON -> list JSONSample.
Variable formatter : JSONSample -> jsstring.
Variable toHTML : JSONSample -> Value -> Outcome jsstring.

Definition getAllSamples : list JSONSample := allFromJSON sampleJSON.

Definition getAllFormattedSamples : Outcome (list jsstring) :=
  array_map (fun s => toHTML s (get (formatter s))) getAllSamples.

Definition getSampleHTML : Outcome jsstring :=
  match getAllFormattedSamples with
  | Done fragments => Done (join [10%N] fragments)
  | Thrown => Thrown
  | OutOfFuel => OutOfFuel
  end.

(** [sampleJSON.example], an array of lines when the document has one. *)
Variable example : JSON -> option (list jsstring).

Definition getExampleSample : Outcome jsstring :=
  match example sampleJSON with
  | Some lines => Done (join [10%N] lines)
  | None => Thrown     (* [join] of undefined *)
  end.

End Registry.

End Samples.

Import Samples.
(** ** Definitions used to state and prove the properties *)

(** Whether a pattern can match the empty string, and the characters a
    non-empty match of it can start with. *)
Fixpoint nullable (r : Regex) : bool :=
  match r with
  | Atom _ => false
  | Seq r1 r2 => nullable r1 && nullable r2
  | Star _ _ => true
  | Plus r1 => nullable r1
  | Opt _ => true
  end.

Fixpoint first_char (fl : Flags) (r : Regex) (c : N) : bool :=
  match r with
  | Atom cs => char_matches fl cs c
  | Seq r1 r2 => first_char fl r1 c || (nullable r1 && first_char fl r2 c)
  | Star _ r1 => first_char fl r1 c
  | Plus r1 => first_char fl r1 c
  | Opt r1 => first_char fl r1 c
  end.

(** The number of characters of a buffer that are not blanks. *)
Fixpoint weight (s : jsstring) : nat :=
  match s with
  | [] => 0
  | c :: s' => (if code_eqb c space then 0 else 1) + weight s'
  end.

(** The loop of a rule as a function of the RegExp object it runs on. *)
Fixpoint loop_pure (fuel : nat) (o : RegExp.Object) (t : Template)
    (str result : jsstring) : Outcome (jsstring * jsstring) * RegExp.Object :=
  match fuel with
  | 0 => (OutOfFuel, o)
  | S fuel' =>
      match builtinExec o str with
      | (None, o') => (Done (str, result), o')
      | (Some m, o') =>
          let '(str, result) := loop_body t m str result in
          loop_pure fuel' o' t str result
      end
  end.

(** The statics the loop of a rule leaves: those of its last match, none
    when it finds nothing. *)
Fixpoint loop_last (fuel : nat) (o : RegExp.Object) (t : Template)
    (str result : jsstring) : option Statics :=
  match fuel with
  | 0 => None
  | S fuel' =>
      match builtinExec o str with
      | (None, _) => None
      | (Some m, o') =>
          let '(str', result') := loop_body t m str result in
          match loop_last fuel' o' t str' result' with
          | Some st => Some st
          | None => legacy_update str (Some m)
          end
      end
  end.

Definition fresh (pattern : Regex) (fl : Flags) : RegExp.Object :=
  {| source := pattern; flags := fl; lastIndex := 0 |}.

Definition rule_pure (pattern : Regex) (fl : Flags) (t : Template)
    (str result : jsstring) : Outcome (jsstring * jsstring) * RegExp.Object :=
  loop_pure (S (length str)) (fresh pattern fl) t str result.

(** A computation whose outcome does not depend on the state it starts in,
    and which leaves that state as it was but for RegExp objects it adds to
    the heap and for the statics, which it may overwrite; what it adds and
    what it writes do not depend on the state either. *)
Definition framed {A} (c : M A) : Prop :=
  ∃ (v : Outcome A) extra upd, ∀ w,
    c w = (v, update_statics upd (with_heap w (heap w ++ extra))).

(** A computation that always ends with a value. *)
Definition total {A} (c : M A) : Prop :=
  ∀ w, ∃ a w', c w = (Done a, w').

(** The seven rules of [encode], in order. *)
Definition rules : list (Regex * Flags * Template) :=
  [(re_line_comment, flags_gm, tpl_span "comment");
   (re_block_comment, flags_gms, tpl_span "comment");
   (re_radix, flags_gm, tpl_span "radix");
   (re_decorator, flags_gm, tpl_span "decorator");
   (re_call_head, flags_gm, tpl_call_head);
   (re_close_paren, flags_gm, tpl_close_paren);
   (re_data, flags_gm, tpl_span "data")].

Definition has_match (fl : Flags) (r : Regex) (s : jsstring) : bool :=
  match search fl r s 0 with Some _ => true | None => false end.

(** No pattern of [encode] matches anywhere in [s]. *)
Definition no_rule_matches (s : jsstring) : bool :=
  forallb (fun p => negb (has_match (snd (fst p)) (fst (fst p)) s)) rules.

(** The scan and result buffers after the first [n] rules of [encode]. *)
Fixpoint run_rules (rs : list (Regex * Flags * Template))
    (str result : jsstring) : Outcome (jsstring * jsstring) :=
  match rs with
  | [] => Done (str, result)
  | (r, fl, t) :: rs' =>
      match fst (rule_pure r fl t str result) with
      | Done (str', result') => run_rules rs' str' result'
      | Thrown => Thrown
      | OutOfFuel => OutOfFuel
      end
  end.

(** The HTML escaping the specification speaks of; [help.js] has no such
    step. *)
Definition spec_escapeHTML (s : jsstring) : jsstring :=
  flat_map (fun c =>
    if code_eqb c 38%N then js "&amp;"
    else if code_eqb c 60%N then js "&lt;"
    else if code_eqb c 62%N then js "&gt;"
    else if code_eqb c quote then js "&quot;"
    else if code_eqb c 39%N then js "&#39;"
    else [c]) s.

(** The fragments one after the other, a newline between two neighbours. *)
Fixpoint newline_separated (fragments : list jsstring) : jsstring :=
  match fragments with
  | [] => []
  | [f] => f
  | f :: rest => f ++ 10%N :: newline_separated rest
  end.

(** The names under which [FormatterInstances] has a property, its own or
    one inherited from [Object.prototype]. *)
Definition property_names : list jsstring :=
  map js ["lavendeux"; "javascript"; "get"; "__proto__";
          "constructor"; "hasOwnProperty"; "isPrototypeOf";
          "propertyIsEnumerable"; "toLocaleString"; "toString"; "valueOf";
          "__defineGetter__"; "__defineSetter__";
          "__lookupGetter__"; "__lookupSetter__"]%string.

Definition is_formatter (v : Value) : bool :=
  match v with VFormatter _ => true | _ => false end.

(** What a successful match at the front of [s] looks like: a prefix is
    consumed and the continuation answered on the rest. *)
Definition consumed (P : N -> Prop) (nul : bool) (s : jsstring) (k : Cont)
    (e : jsstring) : Prop :=
  ∃ pre s', s = pre ++ s' ∧ k s' = Some e
            ∧ (pre = [] → nul = true)
            ∧ (∀ c pre', pre = c :: pre' → P c).

(** A continuation [k'] that answers on [t ++ x] whenever [k] answers on
    [t]. *)
Definition extends_to (x : jsstring) (k k' : Cont) : Prop :=
  ∀ t e, k t = Some e → is_Some (k' (t ++ x)).

(** The characters a match of a pattern can be made of. *)
Fixpoint chars (fl : Flags) (r : Regex) (c : N) : bool :=
  match r with
  | Atom cs => char_matches fl cs c
  | Seq r1 r2 => chars fl r1 c || chars fl r2 c
  | Star _ r1 => chars fl r1 c
  | Plus r1 => chars fl r1 c
  | Opt r1 => chars fl r1 c
  end.

(** A successful match at the front of [s] whose consumed prefix is made of
    characters in [P]. *)
Definition consumed_all (P : N -> Prop) (s : jsstring) (k : Cont)
    (e : jsstring) : Prop :=
  ∃ pre s', s = pre ++ s' ∧ k s' = Some e ∧ Forall P pre.

(** The text cut into pieces: a character of the trimmed text that no rule
    has taken, or a piece a rule has taken, with the template of the rule.
    The scan buffer shows a taken piece as blanks, the result buffer shows
    it wrapped. *)
Inductive Item :=
  | Orig (c : N)
  | Wrapped (t : Template) (m : jsstring).

Definition scan_view (i : Item) : jsstring :=
  match i with
  | Orig c => [c]
  | Wrapped t m => replicate (length (fill t m)) space
  end.

Definition result_view (i : Item) : jsstring :=
  match i with
  | Orig c => [c]
  | Wrapped t m => fill t m
  end.

Definition erase_view (i : Item) : jsstring :=
  match i with
  | Orig c => [c]
  | Wrapped _ m => m
  end.

Definition scan_of (items : list Item) : jsstring := flat_map scan_view items.
Definition result_of (items : list Item) : jsstring := flat_map result_view items.
Definition erase_of (items : list Item) : jsstring := flat_map erase_view items.

(** A taken piece is not empty and is wrapped by one of the templates
    [ts]. *)
Definition item_in (ts : list Template) (i : Item) : Prop :=
  match i with
  | Orig _ => True
  | Wrapped t m => m ≠ [] ∧ In t ts
  end.

(** ... by the template of one of the rules. *)
Definition item_ok (i : Item) : Prop := item_in (map snd rules) i.

(** The templates that wrap a piece in a whole span. *)
Definition span_templates : list Template :=
  [tpl_span "comment"; tpl_span "radix"; tpl_span "decorator";
   tpl_span "data"].

(** [s.includes(f)] *)
Definition includes (s f : jsstring) : bool :=
  match indexOf f s with Some _ => true | None => false end.

(** [str.split(sep)] for a separator of one character, as the language
    defines it: the pieces between the separators, one piece (the whole
    string) when there is none. *)
Fixpoint split_on (sep : N) (s : jsstring) : list jsstring :=
  match s with
  | [] => [[]]
  | c :: s' =>
      if code_eqb c sep then [] :: split_on sep s'
      else match split_on sep s' with
           | piece :: pieces => (c :: piece) :: pieces
           | [] => [[c]]
           end
  end.

(** Two closing steps of the proofs about the seven rules. *)
Ltac plain := vm_compute; repeat constructor; discriminate.
Ltac a_rule :=
  cbn [map snd rules span_templates In];
  repeat first [left; reflexivity | right].

(** ** The matcher *)

Section Matcher.

Variable fl : Flags.

Lemma star_loop_consumed (mr : jsstring -> Cont -> option jsstring)
    (P : N -> Prop) nul :
  (∀ s k e, mr s k = Some e → consumed P nul s k e) →
  ∀ greedy k fuel s e,
    star_loop mr greedy k fuel s = Some e → consumed P true s k e.
Proof.
  intros Hmr greedy k fuel.
  induction fuel as [|fuel IH]; intros s e H; simpl in H.
  - exists [], s. repeat split; auto. intros c pre' Hc. discriminate Hc.
  - assert (Hk : k s = Some e → consumed P true s k e).
    { intros Hk. exists [], s. repeat split; auto.
      intros c pre' Hc. discriminate Hc. }
    assert (Hagain :
      mr s (fun s' => if length s' <? length s
                      then star_loop mr greedy k fuel s' else None) = Some e →
      consumed P true s k e).
    { intros Ha. apply Hmr in Ha.
      destruct Ha as (pre1 & s1 & -> & Hk1 & _ & Hfirst1).
      destruct (Nat.ltb_spec (length s1) (length (pre1 ++ s1))) as [Hlt|];
        [|discriminate].
      apply IH in Hk1. destruct Hk1 as (pre2 & s2 & -> & Hk2 & _ & Hfirst2).
      exists (pre1 ++ pre2), s2. rewrite <- app_assoc.
      repeat split; auto.
      intros c pre' Hc. destruct pre1 as [|c1 pre1].
      + simpl in Hlt. lia.
      + simpl in Hc. injection Hc as -> _. eapply Hfirst1; eauto. }
    destruct greedy.
    + destruct (mr s _) eqn:Ha; [injection H as ->; auto | auto].
    + destruct (k s) eqn:Hks; [injection H as ->; auto | auto].
Qed.

Lemma matcher_consumed (r : Regex) :
  ∀ s k e, matcher fl r s k = Some e →
    consumed (fun c => first_char fl r c = true) (nullable r) s k e.
Proof.
  induction r as [cs | r1 IH1 r2 IH2 | greedy r1 IH1 | r1 IH1 | r1 IH1];
    intros s k e H; simpl in H.
  - destruct s as [|c s]; [discriminate|].
    destruct (char_matches fl cs c) eqn:Hc; [|discriminate].
    exists [c], s. split; [reflexivity|]. split; [exact H|].
    split; [discriminate|].
    intros c' pre' Heq. injection Heq as <- _. exact Hc.
  - apply IH1 in H. destruct H as (pre1 & s1 & -> & H & Hn1 & Hf1).
    apply IH2 in H. destruct H as (pre2 & s2 & -> & H & Hn2 & Hf2).
    exists (pre1 ++ pre2), s2. rewrite <- app_assoc. repeat split; auto.
    + intros Hnil. apply app_eq_nil in Hnil as [-> ->]. simpl.
      rewrite Hn1, Hn2; auto.
    + intros c pre' Hc. simpl. destruct pre1 as [|c1 pre1].
      * simpl in Hc. rewrite Hn1 by reflexivity.
        rewrite (Hf2 c pre' Hc). simpl. apply orb_true_r.
      * simpl in Hc. injection Hc as -> _.
        rewrite (Hf1 c pre1 eq_refl). reflexivity.
  - eapply star_loop_consumed in H; [exact H|]. exact IH1.
  - apply IH1 in H. destruct H as (pre1 & s1 & -> & H & Hn1 & Hf1).
    eapply star_loop_consumed in H; [|exact IH1].
    destruct H as (pre2 & s2 & -> & H & _ & Hf2).
    exists (pre1 ++ pre2), s2. rewrite <- app_assoc. repeat split; auto.
    + intros Hnil. apply app_eq_nil in Hnil as [-> ->]. auto.
    + intros c pre' Hc. simpl. destruct pre1 as [|c1 pre1].
      * simpl in Hc. eapply Hf2; eauto.
      * simpl in Hc. injection Hc as -> _. eapply Hf1; eauto.
  - assert (Hk : k s = Some e →
      consumed (fun c => first_char fl r1 c = true) true s k e).
    { intros Hk. exists [], s. repeat split; auto.
      intros c pre' Hc. discriminate Hc. }
    destruct (matcher fl r1 s k) eqn:Hm.
    + injection H as ->. apply IH1 in Hm.
      destruct Hm as (pre & s' & -> & Hk' & _ & Hf).
      exists pre, s'. repeat split; auto.
    + auto.
Qed.

Lemma search_unfold (r : Regex) s i :
  search fl r s i =
  match matcher fl r s Some with
  | Some rest => Some {| index := i; matched := take (length s - length rest) s |}
  | None => match s with [] => None | _ :: s' => search fl r s' (S i) end
  end.
Proof. destruct s; reflexivity. Qed.

(** A match found by the scan is a factor of the scanned string, at the
    reported index. *)
Lemma search_found (r : Regex) :
  ∀ s i m, search fl r s i = Some m →
    ∃ a b, s = a ++ matched m ++ b ∧ index m = i + length a
           ∧ (matched m = [] → nullable r = true)
           ∧ (∀ c t, matched m = c :: t → first_char fl r c = true).
Proof.
  induction s as [|c s IH]; intros i m H; rewrite search_unfold in H.
  - destruct (matcher fl r [] Some) as [rest|] eqn:Hm; [|discriminate].
    injection H as <-. apply matcher_consumed in Hm.
    destruct Hm as (pre & s' & Heq & Hk & Hn & Hf).
    injection Hk as ->. symmetry in Heq. apply app_eq_nil in Heq as [-> ->].
    exists [], []. simpl. repeat split; auto.
  - destruct (matcher fl r (c :: s) Some) as [rest|] eqn:Hm.
    + injection H as <-. apply matcher_consumed in Hm.
      destruct Hm as (pre & s' & Heq & Hk & Hn & Hf).
      injection Hk as ->. cbn [matched index].
      assert (Hlen : length (c :: s) - length rest = length pre).
      { rewrite Heq, length_app. lia. }
      change (length (c :: s)) with (S (length s)) in Hlen.
      rewrite Hlen, Heq, take_app_length.
      exists [], rest. simpl. repeat split; auto.
    + apply IH in H. destruct H as (a & b & -> & Hi & Hn & Hf).
      exists (c :: a), b. simpl. repeat split; auto. lia.
Qed.

End Matcher.

(** ** [exec] and [replaceAt] *)

Lemma builtinExec_found o S m o' :
  builtinExec o S = (Some m, o') →
  ∃ a b, S = a ++ matched m ++ b ∧ length a = index m
         ∧ (global (flags o) = true →
            lastIndex o ≤ index m
            ∧ o' = set_lastIndex o (index m + length (matched m)))
         ∧ (matched m = [] → nullable (source o) = true)
         ∧ (∀ c t, matched m = c :: t →
                   first_char (flags o) (source o) c = true).
Proof.
  unfold builtinExec. intros H.
  set (start := if global (flags o) then lastIndex o else 0) in *.
  destruct (Nat.ltb_spec (length S) start) as [Hlt|Hle]; [discriminate|].
  destruct (search (flags o) (source o) (drop start S) start) as [m'|] eqn:Hs;
    [|discriminate].
  injection H as -> <-.
  apply search_found in Hs. destruct Hs as (a & b & Hd & Hi & Hn & Hf).
  exists (take start S ++ a), b. repeat split; auto.
  - rewrite <- app_assoc, <- Hd. symmetry. apply take_drop.
  - rewrite length_app, length_take. lia.
  - subst start. rewrite H in Hi. lia.
  - rewrite H. reflexivity.
Qed.

Lemma builtinExec_null o S o' :
  global (flags o) = true →
  builtinExec o S = (None, o') → o' = set_lastIndex o 0.
Proof.
  unfold builtinExec. intros Hg H. rewrite Hg in H.
  destruct (length S <? lastIndex o); [congruence|].
  destruct (search _ _ _ _); [discriminate|congruence].
Qed.

Lemma code_eqb_refl c : code_eqb c c = true.
Proof. apply N.eqb_refl. Qed.

Lemma is_prefix_app m b : is_prefix m (m ++ b) = true.
Proof.
  induction m as [|c m IH]; simpl; [reflexivity|].
  rewrite code_eqb_refl. exact IH.
Qed.

Lemma indexOf_unfold needle hay :
  indexOf needle hay =
  if is_prefix needle hay then Some 0
  else match hay with [] => None | _ :: hay' => S <$> indexOf needle hay' end.
Proof. destruct hay; reflexivity. Qed.

Lemma indexOf_at_front m b : indexOf m (m ++ b) = Some 0.
Proof. rewrite indexOf_unfold, is_prefix_app. reflexivity. Qed.

(** A template without a dollar is taken as it is. *)
Lemma getSubstitution_plain m p f t :
  Forall (fun c => c ≠ dollar) t → getSubstitution m p f t = t.
Proof.
  induction 1 as [|c t Hc Ht IH]; simpl; [reflexivity|].
  destruct (code_eqb c dollar) eqn:E.
  - apply N.eqb_eq in E. contradiction.
  - rewrite IH. reflexivity.
Qed.

Lemma replaceAt_factor a m b replacement :
  Forall (fun c => c ≠ dollar) replacement →
  replaceAt (a ++ m ++ b) m (length a) replacement = a ++ replacement ++ b.
Proof.
  intros Hplain. unfold replaceAt, substring_to, substring_from, JS.replace.
  rewrite take_app_length, drop_app_length, indexOf_at_front.
  rewrite getSubstitution_plain by exact Hplain.
  simpl. rewrite drop_app_length. reflexivity.
Qed.

Lemma padding_plain n : Forall (fun c => c ≠ dollar) (padStart_empty n).
Proof.
  unfold padStart_empty. apply Forall_replicate. discriminate.
Qed.

(** The scan buffer after one round: the match is overwritten by blanks,
    as many as the replacement is long. *)
Lemma loop_body_scan t m a b result :
  length a = index m →
  fst (loop_body t m (a ++ matched m ++ b) result)
  = a ++ replicate (length (fill t (matched m))) space ++ b.
Proof.
  intros Hi. unfold loop_body. cbn [fst]. rewrite <- Hi.
  apply replaceAt_factor, padding_plain.
Qed.

(** ** The loops end *)

Lemma weight_app a b : weight (a ++ b) = weight a + weight b.
Proof. induction a as [|c a IH]; simpl; [reflexivity|]. rewrite IH. lia. Qed.

Lemma weight_blanks n : weight (replicate n space) = 0.
Proof. induction n as [|n IH]; simpl; auto. Qed.

Lemma weight_le_length s : weight s ≤ length s.
Proof.
  induction s as [|c s IH]; simpl; [lia|].
  destruct (code_eqb c space); lia.
Qed.

Lemma loop_pure_total fuel :
  ∀ o t str result,
    global (flags o) = true →
    nullable (source o) = false →
    first_char (flags o) (source o) space = false →
    weight (drop (lastIndex o) str) < fuel →
    ∃ p o', loop_pure fuel o t str result = (Done p, o').
Proof.
  induction fuel as [|fuel IH]; intros o t str result Hg Hn Hsp Hw; [lia|].
  cbn [loop_pure]. destruct (builtinExec o str) as [[m|] o'] eqn:He.
  - unfold loop_body.
    apply builtinExec_found in He.
    destruct He as (a & b & -> & Hi & Hglob & Hne & Hfirst).
    destruct (Hglob Hg) as [Hli ->].
    apply IH; cbn [flags source lastIndex set_lastIndex]; auto.
    destruct (matched m) as [|c mt] eqn:Hm.
    { rewrite Hne in Hn by reflexivity. discriminate. }
    assert (Hc : code_eqb c space = false).
    { destruct (code_eqb c space) eqn:E; [|reflexivity].
      apply N.eqb_eq in E. subst c.
      rewrite (Hfirst _ _ eq_refl) in Hsp. discriminate. }
    rewrite <- Hi, replaceAt_factor by apply padding_plain.
    unfold padStart_empty, fill. rewrite drop_app_add, !length_app.
    replace (length (before t) + (length (c :: mt) + length (after t)))
      with (length (c :: mt) + (length (before t) + length (after t))) by lia.
    rewrite replicate_add, <- app_assoc, drop_app_length'
      by (rewrite length_replicate; reflexivity).
    rewrite weight_app, weight_blanks.
    assert (Hcm : weight (c :: mt) = S (weight mt)).
    { simpl. rewrite Hc. reflexivity. }
    assert (Hold : weight (c :: mt) + weight b
                   ≤ weight (drop (lastIndex o) (a ++ (c :: mt) ++ b))).
    { rewrite drop_app_le by lia. rewrite !weight_app. apply Nat.le_add_l. }
    rewrite Hcm in Hold. revert Hw Hold.
    generalize (weight (drop (lastIndex o) (a ++ (c :: mt) ++ b))).
    generalize (weight mt). generalize (weight b). clear.
    intros wb wm wd Hw Hold. simpl. lia.
  - eauto.
Qed.

(** ** The loops on the heap *)

Lemma with_heap_id w : with_heap w (heap w) = w.
Proof. destruct w; reflexivity. Qed.

Lemma update_statics_None w : update_statics None w = w.
Proof. destruct w; reflexivity. Qed.

(** The loop touches the heap only at its own RegExp object; what it
    computes, and the statics it leaves, are functions of that object and
    the two buffers. *)
Lemma while_exec_pure fuel :
  ∀ regexp t str result w o,
    heap w !! regexp = Some o →
    while_exec fuel regexp t str result w
    = (fst (loop_pure fuel o t str result),
       update_statics (loop_last fuel o t str result)
         (with_heap w
            (<[regexp := snd (loop_pure fuel o t str result)]> (heap w)))).
Proof.
  induction fuel as [|fuel IH]; intros regexp t str result w o Hrx.
  - cbn [while_exec loop_pure loop_last fst snd]. unfold out_of_fuel.
    rewrite list_insert_id by exact Hrx.
    rewrite with_heap_id, update_statics_None. reflexivity.
  - cbn [while_exec loop_pure loop_last]. unfold St.bind, exec. rewrite Hrx.
    destruct (builtinExec o str) as [[m|] o'].
    + destruct (loop_body t m str result) as [str' result'].
      rewrite (IH _ _ _ _ _ o').
      * cbn [heap with_heap update_statics]. rewrite list_insert_insert_eq.
        f_equal. unfold update_statics, with_heap.
        cbn [heap statics document legacy_update].
        destruct (loop_last fuel o' t str' result'); reflexivity.
      * cbn [heap with_heap update_statics]. apply list_lookup_insert_eq.
        eapply lookup_lt_Some; eauto.
    + reflexivity.
Qed.

Lemma rule_run pattern fl t str result w :
  rule pattern fl t str result w
  = (fst (rule_pure pattern fl t str result),
     update_statics
       (loop_last (S (length str)) (fresh pattern fl) t str result)
       (with_heap w (heap w ++ [snd (rule_pure pattern fl t str result)]))).
Proof.
  unfold rule, St.bind, new_RegExp.
  rewrite (while_exec_pure _ _ _ _ _ _ (fresh pattern fl)).
  - cbn [heap with_heap]. unfold rule_pure. f_equal. f_equal.
    unfold with_heap. cbn [heap statics document]. f_equal.
    replace (length (heap w)) with (length (heap w) + 0) by lia.
    rewrite insert_app_r. reflexivity.
  - cbn [heap with_heap]. apply list_lookup_middle. reflexivity.
Qed.

Lemma framed_ret {A} (a : A) : framed (ret a).
Proof.
  exists (Done a), [], None. intros w. unfold ret.
  rewrite app_nil_r, with_heap_id, update_statics_None. reflexivity.
Qed.

Lemma framed_bind {A B} (c : M A) (f : A -> M B) :
  framed c → (∀ a, framed (f a)) → framed (St.bind c f).
Proof.
  intros (v & e1 & u1 & Hc) Hf. destruct v as [a| |].
  - destruct (Hf a) as (v' & e2 & u2 & Hfa).
    exists v', (e1 ++ e2),
      (match u2 with Some st => Some st | None => u1 end).
    intros w. unfold St.bind. rewrite Hc, Hfa.
    unfold update_statics, with_heap. cbn [heap statics document].
    rewrite app_assoc. destruct u2; reflexivity.
  - exists Thrown, e1, u1. intros w. unfold St.bind. rewrite Hc. reflexivity.
  - exists OutOfFuel, e1, u1. intros w. unfold St.bind. rewrite Hc.
    reflexivity.
Qed.

Lemma framed_rule pattern fl t str result :
  framed (rule pattern fl t str result).
Proof.
  exists (fst (rule_pure pattern fl t str result)).
  do 2 eexists. intros w. apply rule_run.
Qed.

Lemma framed_encode str : framed (encode str).
Proof.
  unfold encode.
  repeat (apply framed_bind; [apply framed_rule | intros [? ?]]).
  apply framed_ret.
Qed.

Lemma total_ret {A} (a : A) : total (ret a).
Proof. intros w. exists a, w. reflexivity. Qed.

Lemma total_bind {A B} (c : M A) (f : A -> M B) :
  total c → (∀ a, total (f a)) → total (St.bind c f).
Proof.
  intros Hc Hf w. destruct (Hc w) as (a & w' & H).
  destruct (Hf a w') as (b & w'' & H'). exists b, w''.
  unfold St.bind. rewrite H. exact H'.
Qed.

Lemma total_rule pattern fl t str result :
  global fl = true → nullable pattern = false →
  first_char fl pattern space = false →
  total (rule pattern fl t str result).
Proof.
  intros Hg Hn Hsp w. rewrite rule_run. unfold rule_pure.
  destruct (loop_pure_total (S (length str)) (fresh pattern fl) t str result)
    as (p & o' & H); auto.
  - cbn [fresh lastIndex drop]. apply Nat.lt_succ_r, weight_le_length.
  - rewrite H. eauto.
Qed.

Lemma total_encode str : total (encode str).
Proof.
  unfold encode.
  repeat (apply total_bind;
          [apply total_rule; reflexivity | intros [? ?]]).
  apply total_ret.
Qed.

(** A rule whose pattern matches nowhere leaves both buffers alone. *)
Lemma rule_pure_no_match pattern fl t str result :
  has_match fl pattern str = false →
  fst (rule_pure pattern fl t str result) = Done (str, result).
Proof.
  unfold has_match. destruct (search fl pattern str 0) eqn:Hs; [discriminate|].
  intros _. unfold rule_pure. cbn [loop_pure].
  unfold builtinExec. cbn [fresh flags source lastIndex].
  replace (if global fl then 0 else 0) with 0 by (destruct (global fl); auto).
  cbn [Nat.ltb Nat.leb]. rewrite drop_0, Hs. reflexivity.
Qed.

(** ** A match survives text added around it

    The patterns have no anchors, so what the matcher finds in a piece of a
    string it finds (there or further left) in the whole string. *)

Section Extend.

Variable fl : Flags.
Variable x : jsstring.

Lemma star_loop_S (mr : jsstring -> Cont -> option jsstring) greedy k n s :
  star_loop mr greedy k (S n) s =
  if greedy
  then match mr s (fun s' => if length s' <? length s
                             then star_loop mr greedy k n s' else None) with
       | Some e => Some e
       | None => k s
       end
  else match k s with
       | Some e => Some e
       | None => mr s (fun s' => if length s' <? length s
                                 then star_loop mr greedy k n s' else None)
       end.
Proof. reflexivity. Qed.

Lemma star_loop_extend (mr : jsstring -> Cont -> option jsstring) :
  (∀ s k k' e, mr s k = Some e → extends_to x k k' → is_Some (mr (s ++ x) k')) →
  ∀ greedy k k', extends_to x k k' →
    ∀ n n' s e, n ≤ n' →
      star_loop mr greedy k n s = Some e →
      is_Some (star_loop mr greedy k' n' (s ++ x)).
Proof.
  intros Hmr greedy k k' Hk.
  induction n as [|n IH]; intros n' s e Hle H.
  - cbn [star_loop] in H. apply Hk in H.
    destruct n' as [|n']; [exact H|]. rewrite star_loop_S.
    destruct greedy.
    + destruct (mr (s ++ x) _); [eauto | exact H].
    + destruct H as [e' ->]. eauto.
  - destruct n' as [|n']; [lia|]. rewrite star_loop_S in H. rewrite star_loop_S.
    assert (Hcases :
      mr s (fun s' => if length s' <? length s
                      then star_loop mr greedy k n s' else None) = Some e
      ∨ k s = Some e).
    { destruct greedy.
      - destruct (mr s _); [left; congruence | right; exact H].
      - destruct (k s); [right; congruence | left; exact H]. }
    destruct Hcases as [Ha | Hks].
    + eapply Hmr with
        (k' := fun s' : jsstring =>
                 if length s' <? length (s ++ x)
                 then star_loop mr greedy k' n' s' else None) in Ha.
      * destruct Ha as [e' Ha]. rewrite Ha.
        destruct greedy; [eauto|]. destruct (k' (s ++ x)); eauto.
      * intros t e0 Ht.
        destruct (Nat.ltb_spec (length t) (length s)) as [Hlt|]; [|discriminate].
        destruct (Nat.ltb_spec (length (t ++ x)) (length (s ++ x))) as [|Hge].
        -- eapply IH; [|exact Ht]. lia.
        -- rewrite !length_app in Hge. lia.
    + apply Hk in Hks. destruct Hks as [e' Hks]. rewrite Hks.
      destruct greedy; [|eauto].
      destruct (mr (s ++ x) _); eauto.
Qed.

Lemma matcher_extend (r : Regex) :
  ∀ s k k' e, matcher fl r s k = Some e → extends_to x k k' →
    is_Some (matcher fl r (s ++ x) k').
Proof.
  induction r as [cs | r1 IH1 r2 IH2 | greedy r1 IH1 | r1 IH1 | r1 IH1];
    intros s k k' e H Hk; cbn [matcher] in *.
  - destruct s as [|c s]; [discriminate|]. simpl.
    destruct (char_matches fl cs c); [|discriminate]. eapply Hk; eauto.
  - eapply IH1; [exact H|]. intros t e0 Ht. eapply IH2; eauto.
  - eapply star_loop_extend with (n := length s);
      [exact IH1 | exact Hk | | exact H].
    rewrite length_app. apply Nat.le_add_r.
  - eapply IH1; [exact H|]. intros t e0 Ht.
    eapply star_loop_extend with (n := length t);
      [exact IH1 | exact Hk | | exact Ht].
    rewrite length_app. apply Nat.le_add_r.
  - destruct (matcher fl r1 s k) eqn:Hm.
    + eapply IH1 in Hm; [|exact Hk]. destruct Hm as [e' ->]. eauto.
    + apply Hk in H. destruct H as [e' H]. rewrite H.
      destruct (matcher fl r1 (s ++ x) k'); eauto.
Qed.

End Extend.

Lemma search_matched fl r :
  ∀ s i m, search fl r s i = Some m →
    ∃ a b, s = a ++ b ∧ is_Some (matcher fl r b Some).
Proof.
  induction s as [|c s IH]; intros i m H; rewrite search_unfold in H.
  - destruct (matcher fl r [] Some) eqn:Hm; [|discriminate].
    exists [], []. rewrite Hm. eauto.
  - destruct (matcher fl r (c :: s) Some) eqn:Hm.
    + exists [], (c :: s). rewrite Hm. eauto.
    + apply IH in H. destruct H as (a & b & -> & Hb).
      exists (c :: a), b. auto.
Qed.

Lemma search_complete fl r :
  ∀ a b i, is_Some (matcher fl r b Some) → is_Some (search fl r (a ++ b) i).
Proof.
  induction a as [|c a IH]; intros b i [e Hb]; rewrite search_unfold.
  - simpl. rewrite Hb. eauto.
  - destruct (matcher fl r ((c :: a) ++ b) Some); [eauto|].
    simpl. apply IH. eauto.
Qed.

Lemma has_match_extend fl r a s b :
  has_match fl r s = true → has_match fl r (a ++ s ++ b) = true.
Proof.
  unfold has_match. destruct (search fl r s 0) as [m|] eqn:Hs; [|discriminate].
  intros _. apply search_matched in Hs. destruct Hs as (a' & b' & -> & [e Hm]).
  eapply (matcher_extend fl b) with (k' := Some) in Hm.
  - rewrite <- (app_assoc a' b' b), (app_assoc a a' (b' ++ b)).
    destruct (search_complete fl r (a ++ a') (b' ++ b) 0 Hm) as [m' ->].
    reflexivity.
  - intros t e0 _. eauto.
Qed.

Lemma trimStart_suffix s : ∃ p, s = p ++ trimStart s.
Proof.
  induction s as [|c s [p IH]]; simpl.
  - exists []. reflexivity.
  - destruct (is_trimmable c).
    + exists (c :: p). simpl. congruence.
    + exists []. reflexivity.
Qed.

Lemma trim_factor s : ∃ a b, s = a ++ trim s ++ b.
Proof.
  unfold trim, trimEnd.
  destruct (trimStart_suffix s) as [a Ha].
  destruct (trimStart_suffix (rev (trimStart s))) as [b Hb].
  exists a, (rev b). rewrite <- rev_app_distr, <- Hb, rev_involutive. exact Ha.
Qed.

Lemma no_rule_matches_trim s :
  no_rule_matches s = true → no_rule_matches (trim s) = true.
Proof.
  unfold no_rule_matches. rewrite !forallb_forall. intros H p Hp.
  specialize (H p Hp). destruct (trim_factor s) as (a & b & Hs).
  destruct (has_match _ _ (trim s)) eqn:Ht; [|reflexivity].
  rewrite Hs, has_match_extend in H by exact Ht. discriminate.
Qed.

Lemma encode_no_match s w :
  no_rule_matches (trim s) = true → fst (encode s w) = Done (trim s).
Proof.
  unfold no_rule_matches, rules. cbn [forallb fst snd]. intros H.
  repeat (apply andb_prop in H; destruct H as [?%negb_true_iff H]).
  unfold encode, St.bind.
  repeat (rewrite rule_run, rule_pure_no_match by assumption).
  reflexivity.
Qed.



(** ** [encode] as a function of its argument *)

Lemma encode_any_world s w : fst (encode s w) = encode_value s.
Proof.
  destruct (framed_encode s) as (v & e & u & Hv). unfold encode_value.
  rewrite (Hv w), (Hv empty_world). reflexivity.
Qed.

(** [run_rules rules] is what [encode] computes. *)
Lemma encode_run_rules s :
  encode_value s =
  match run_rules rules (trim s) (trim s) with
  | Done (_, result) => Done result
  | Thrown => Thrown
  | OutOfFuel => OutOfFuel
  end.
Proof.
  unfold encode_value, encode, rules, St.bind. cbn [run_rules].
  repeat (rewrite rule_run;
          match goal with
          | |- context [fst (rule_pure ?r ?f ?t ?a ?b)] =>
              destruct (fst (rule_pure r f t a b)) as [[? ?]| |];
              [|reflexivity|reflexivity]
          end).
  reflexivity.
Qed.

(** ** One round of a loop *)

(** The result buffer after one round, when the match sits in it at the
    same index and the replacement has no dollar in it. *)
Lemma loop_body_result t m str a b :
  length a = index m →
  Forall (fun c => c ≠ dollar) (fill t (matched m)) →
  snd (loop_body t m str (a ++ matched m ++ b))
  = a ++ fill t (matched m) ++ b.
Proof.
  intros Hi Hplain. unfold loop_body. cbn [snd]. rewrite <- Hi.
  apply replaceAt_factor, Hplain.
Qed.

(** One round keeps the two buffers aligned when the result buffer holds
    the match at the index of the match and the replacement has no dollar
    in it: both get a piece of the same length in the same place. *)
Lemma loop_body_aligned t m a b a' b' :
  length a = index m → length a' = index m →
  Forall (fun c => c ≠ dollar) (fill t (matched m)) →
  ∃ pad,
    loop_body t m (a ++ matched m ++ b) (a' ++ matched m ++ b')
    = (a ++ pad ++ b, a' ++ fill t (matched m) ++ b')
    ∧ length pad = length (fill t (matched m))
    ∧ Forall (fun c => c = space) pad.
Proof.
  intros Ha Ha' Hplain.
  exists (replicate (length (fill t (matched m))) space).
  split; [|split].
  - rewrite (surjective_pairing (loop_body _ _ _ _)).
    rewrite loop_body_scan, loop_body_result by assumption. reflexivity.
  - apply length_replicate.
  - apply Forall_replicate. reflexivity.
Qed.

(** A pattern that is one character set matches one character. *)
Lemma search_atom fl cs :
  ∀ s i m, search fl (Atom cs) s i = Some m →
    ∃ c, matched m = [c] ∧ char_matches fl cs c = true.
Proof.
  induction s as [|c s IH]; intros i m H; rewrite search_unfold in H.
  - discriminate H.
  - cbn [matcher] in H. destruct (char_matches fl cs c) eqn:Hc.
    + injection H as <-. exists c. split; [|exact Hc].
      cbn [matched]. replace (S (length s) - length s) with 1 by lia.
      reflexivity.
    + eapply IH; eauto.
Qed.


(** ** The registry *)

Lemma own_lookup_None name :
  name ∉ [js "lavendeux"; js "javascript"; js "get"] →
  FormatterInstances !! name = None.
Proof.
  intros Hn. unfold FormatterInstances, FormatterInstances_literal.
  rewrite !lookup_insert_ne, lookup_empty; [reflexivity|..];
    intros <-; apply Hn; repeat constructor.
Qed.

Lemma prototype_lookup_None name :
  name ∉ property_names → Object_prototype !! name = None.
Proof.
  intros Hn. unfold Object_prototype.
  apply not_elem_of_list_to_map_1. intros Hin. apply Hn.
  unfold property_names.
  apply list_elem_of_In. apply list_elem_of_In in Hin.
  cbn [map fst fmap list_fmap] in Hin. cbn [map].
  right. right. right. exact Hin.
Qed.

(** A name under which the object has no property, its own or an inherited
    one, resolves to the lavendeux formatter. *)
Lemma get_fallback name :
  name ∉ property_names → get name = VFormatter LavendeuxFormatter.
Proof.
  intros Hn. unfold get, has_property.
  rewrite own_lookup_None, prototype_lookup_None; [reflexivity|exact Hn|].
  intros Hin. apply Hn. unfold property_names. cbn [map].
  apply list_elem_of_In. apply list_elem_of_In in Hin.
  destruct Hin as [<-|[<-|[<-|[]]]]; simpl; auto.
Qed.

Lemma array_map_Done {A B} (f : A → Outcome B) (arr : list A) (ys : list B) :
  array_map f arr = Done ys ↔ Forall2 (fun x y => f x = Done y) arr ys.
Proof.
  revert ys. induction arr as [|x arr IH]; intros ys; simpl.
  - split.
    + intros [= <-]. constructor.
    + intros H. inversion H. reflexivity.
  - split.
    + destruct (f x) as [y| |] eqn:Hx; try discriminate.
      destruct (array_map f arr) as [ys'| |] eqn:Hm; try discriminate.
      intros [= <-]. constructor; [exact Hx|]. apply IH. reflexivity.
    + intros H. inversion H as [|? y ? ys' Hx Hrest]; subst.
      rewrite Hx. apply IH in Hrest. rewrite Hrest. reflexivity.
Qed.

Lemma join_from_later sep k R arr :
  0 < k → join_from sep k R arr = R ++ concat (map (app sep) arr).
Proof.
  revert k R. induction arr as [|x arr IH]; intros k R Hk; simpl.
  - rewrite app_nil_r. reflexivity.
  - destruct k as [|k]; [lia|]. simpl. rewrite IH by lia.
    rewrite <- !app_assoc. reflexivity.
Qed.

Lemma newline_separated_cons f rest :
  newline_separated (f :: rest) = f ++ concat (map (app [10%N]) rest).
Proof.
  revert f. induction rest as [|g rest IH]; intros f.
  - simpl. rewrite app_nil_r. reflexivity.
  - change (newline_separated (f :: g :: rest))
      with (f ++ 10%N :: newline_separated (g :: rest)).
    rewrite IH. reflexivity.
Qed.

Lemma join_newline arr : join [10%N] arr = newline_separated arr.
Proof.
  destruct arr as [|x arr]; [reflexivity|].
  unfold join. cbn [join_from Nat.eqb]. rewrite join_from_later by lia.
  rewrite newline_separated_cons. reflexivity.
Qed.

(** ** Two runs of [encode] *)

Example encode_empty : encode_value [] = Done [].
Proof. vm_compute. reflexivity. Qed.

Example encode_comment_then_radix :
  encode_value (js "// comment" ++ [10%N] ++ js "0xFF & 0b110")
  = Done (span_open "comment" ++ js "// comment" ++ span_close ++ [10%N]
          ++ span_open "radix" ++ js "0xFF" ++ span_close ++ js " & "
          ++ span_open "radix" ++ js "0b110" ++ span_close).
Proof. vm_compute. reflexivity. Qed.

(** ** The properties *)

(** C1.  The spans are not kept apart on every input.  On the text
    [/* //a], newline, [ */0x1  // 0x1] the line-comment rule takes [//a]
    and [// 0x1] and blanks them in the scan buffer.  The block-comment
    rule, whose dot also matches a blank, then matches from [/*] to [*/]
    across the blanks of [//a]: the scan buffer grows by the length of a
    wrapper while the text is not found in the result buffer, which stays
    as it was.  From there the two buffers are 29 apart, and the radix rule,
    which finds [0x1] at 68 in the scan buffer, has its span written over
    the [0x1] inside the second comment, a region the line-comment rule had
    taken; the [0x1] it matched stays bare. *)
Theorem radix_span_inside_comment :
  let T := js "/* //a" ++ [10%N] ++ js " */0x1  // 0x1" in
  run_rules (take 1 rules) T T
  = Done (js "/* " ++ replicate 32 space ++ [10%N] ++ js " */0x1  "
                   ++ replicate 35 space,
          js "/* " ++ span_open "comment" ++ js "//a" ++ span_close
                   ++ [10%N] ++ js " */0x1  "
                   ++ span_open "comment" ++ js "// 0x1" ++ span_close)
  ∧ run_rules (take 2 rules) T T
    = Done (replicate 68 space ++ js "0x1  " ++ replicate 35 space,
            js "/* " ++ span_open "comment" ++ js "//a" ++ span_close
                     ++ [10%N] ++ js " */0x1  "
                     ++ span_open "comment" ++ js "// 0x1" ++ span_close)
  ∧ ∀ w, fst (encode T w)
         = Done (js "/* " ++ span_open "comment" ++ js "//a" ++ span_close
                 ++ [10%N] ++ js " */0x1  "
                 ++ span_open "comment" ++ js "// "
                 ++ span_open "radix" ++ js "0x1" ++ span_close
                 ++ span_close).
Proof.
  cbv zeta. split; [vm_compute; reflexivity|].
  split; [vm_compute; reflexivity|].
  intros w. rewrite encode_any_world. vm_compute. reflexivity.
Qed.

(** C2.  The scan buffer is padded by the length of the replacement, but
    the two buffers do not always stay equally long.  [replaceAt] hands the
    replacement to [String.prototype.replace], which reads it as a
    template: on the text [// $$] the replacement is 34 long and the scan
    buffer gets 34 blanks, while the result buffer gets 33 characters, the
    two dollars written as one.  Behind such a comment every later match is
    looked for one place too far right in the result buffer: with a second
    line [0x1 // 0x1] the second comment is not wrapped and the radix span
    lands on the [0x1] inside it. *)
Theorem dollar_desynchronizes_buffers :
  let T := js "// $$" in
  length (fill (tpl_span "comment") T) = 34
  ∧ run_rules (take 1 rules) T T
    = Done (replicate 34 space,
            span_open "comment" ++ js "// $" ++ span_close)
  ∧ length (span_open "comment" ++ js "// $" ++ span_close) = 33
  ∧ ∀ w, fst (encode (js "// $$" ++ [10%N] ++ js "0x1 // 0x1") w)
         = Done (span_open "comment" ++ js "// $" ++ span_close ++ [10%N]
                 ++ js "0x1 // "
                 ++ span_open "radix" ++ js "0x1" ++ span_close).
Proof.
  cbv zeta. split; [vm_compute; reflexivity|].
  split; [vm_compute; reflexivity|]. split; [vm_compute; reflexivity|].
  intros w. rewrite encode_any_world. vm_compute. reflexivity.
Qed.

(** C3.  On [foo(1,2)] the first four rules find nothing; the call-head
    rule puts the opening tag of a span of class function in front of
    [foo(] and no closing tag; the close-parenthesis rule then puts the
    closing tag behind [)]; the value of [encode] is the whole call inside
    one span of class function, the two arguments in spans of class data. *)
Theorem encode_call_expression :
  let T := js "foo(1,2)" in
  run_rules (take 4 rules) T T = Done (T, T)
  ∧ run_rules (take 5 rules) T T
    = Done (replicate 27 space ++ js "1,2)",
            span_open "function" ++ js "foo(1,2)")
  ∧ run_rules (take 6 rules) T T
    = Done (replicate 27 space ++ js "1,2" ++ replicate 8 space,
            span_open "function" ++ js "foo(1,2)" ++ span_close)
  ∧ ∀ w, fst (encode T w)
         = Done (span_open "function" ++ js "foo("
                 ++ span_open "data" ++ js "1" ++ span_close ++ js ","
                 ++ span_open "data" ++ js "2" ++ span_close
                 ++ js ")" ++ span_close).
Proof.
  cbv zeta. split; [vm_compute; reflexivity|].
  split; [vm_compute; reflexivity|]. split; [vm_compute; reflexivity|].
  intros w. rewrite encode_any_world. vm_compute. reflexivity.
Qed.

(** C4, as stated, fails: a text on which no pattern matches is not always
    returned as it is, and it is not escaped.  The text of one blank comes
    back empty, because of [trim]; the text [&] comes back as [&], while
    escaped it would be [&amp;]: the value is neither the text, nor the
    escaped text, nor the escaped trimmed text. *)
Lemma unmatched_input_is_trimmed_not_escaped :
  ¬ (∀ s, no_rule_matches s = true → encode_value s = Done s)
  ∧ ¬ (∀ s, no_rule_matches s = true →
            encode_value s = Done (spec_escapeHTML s))
  ∧ ¬ (∀ s, no_rule_matches s = true →
            encode_value s = Done (spec_escapeHTML (trim s)))
  ∧ no_rule_matches (js " ") = true
  ∧ encode_value (js " ") = Done []
  ∧ no_rule_matches (js "&") = true
  ∧ encode_value (js "&") = Done (js "&")
  ∧ spec_escapeHTML (trim (js "&")) = js "&amp;".
Proof.
  split; [|split; [|split]].
  - intros H. specialize (H (js " ") eq_refl). vm_compute in H. discriminate H.
  - intros H. specialize (H (js "&") eq_refl). vm_compute in H. discriminate H.
  - intros H. specialize (H (js "&") eq_refl). vm_compute in H. discriminate H.
  - repeat split; vm_compute; reflexivity.
Qed.

(** C4, as the code has it.  [encode] ends with a value on every text and
    from every state: it does not throw and none of its loops runs on.
    When no pattern matches anywhere in the text, the value is the text
    without its leading and trailing white space, not escaped. *)
Theorem encode_total_and_trims :
  ∀ s w,
    (∃ out w', encode s w = (Done out, w'))
    ∧ (no_rule_matches s = true → fst (encode s w) = Done (trim s)).
Proof.
  intros s w. split.
  - apply total_encode.
  - intros H. apply encode_no_match, no_rule_matches_trim, H.
Qed.

(** On [ + ] no pattern matches; the value is [+]. *)
Lemma encode_total_and_trims_witness :
  fst (encode (js " + ") empty_world) = Done (js "+").
Proof.
  exact (proj2 (encode_total_and_trims (js " + ") empty_world) eq_refl).
Defined.

(** C5.  A name that is no formatter name is not always resolved to the
    lavendeux formatter.  The lookup function is itself stored in the
    object, under [get], and the [in] operator also sees what the object
    inherits: [get] applied to the name [get] is the lookup function, and
    applied to [toString] it is a function of [Object.prototype]; neither
    is a formatter.  The name [unknown-lang] does fall back. *)
Theorem get_of_helper_name_is_no_formatter :
  get (js "get") = VLookup
  ∧ is_formatter (get (js "get")) = false
  ∧ get (js "toString") = VBuiltin (js "toString")
  ∧ is_formatter (get (js "toString")) = false
  ∧ get (js "unknown-lang") = VFormatter LavendeuxFormatter.
Proof. repeat split; vm_compute; reflexivity. Qed.

(** C6, as stated, fails.  In [// a], newline, [/* b */] the block comment
    is at offset 5 of the trimmed text; after the line-comment rule has
    run, the block-comment rule finds it at offset 34. *)
Lemma second_rule_offset_not_original :
  let T := js "// a" ++ [10%N] ++ js "/* b */" in
  ∃ scan result m,
    run_rules (take 1 rules) T T = Done (scan, result)
    ∧ fst (builtinExec (fresh re_block_comment flags_gms) scan) = Some m
    ∧ matched m = js "/* b */"
    ∧ indexOf (matched m) T = Some 5
    ∧ index m = 34.
Proof.
  cbv zeta.
  exists (replicate 33 space ++ [10%N] ++ js "/* b */").
  exists (span_open "comment" ++ js "// a" ++ span_close
          ++ [10%N] ++ js "/* b */").
  exists {| index := 34; matched := js "/* b */" |}.
  repeat split; vm_compute; reflexivity.
Qed.

(** C6, as the code has it.  Offsets are not kept, they move with the
    buffers.  One round of a rule overwrites the match in the scan buffer
    by as many blanks as the replacement is long: the text in front of the
    match stays where it was, and the text behind it moves right by the
    length the replacement adds to the match.  When the result buffer holds
    the match at the index of the match and the replacement has no dollar
    in it, the result buffer gets the replacement there and nothing else
    changes, so that the two buffers move alike.  What any later [exec]
    finds in the scan buffer behind the blanks stood, before the round,
    that many places further left; what it finds in front of the match
    stood at the same place. *)
Theorem later_text_shifts_by_growth :
  ∀ o t str result m o',
    builtinExec o str = (Some m, o') →
    let str' := fst (loop_body t m str result) in
    let growth := length (before t) + length (after t) in
    length (fill t (matched m)) = length (matched m) + growth
    ∧ length str' = length str + growth
    ∧ (∀ p, p < index m → str' !! p = str !! p)
    ∧ (∀ p, index m ≤ p < index m + length (fill t (matched m)) →
            str' !! p = Some space)
    ∧ (∀ p, index m + length (matched m) ≤ p →
            str' !! (p + growth) = str !! p)
    ∧ (∀ a b, result = a ++ matched m ++ b → length a = index m →
              Forall (fun c => c ≠ dollar) (fill t (matched m)) →
              snd (loop_body t m str result) = a ++ fill t (matched m) ++ b)
    ∧ (∀ o2 m2 o2',
         builtinExec o2 str' = (Some m2, o2') →
         (index m + length (fill t (matched m)) ≤ index m2 →
          ∀ k, k < length (matched m2) →
               str !! (index m2 - growth + k) = matched m2 !! k)
         ∧ (index m2 + length (matched m2) ≤ index m →
            ∀ k, k < length (matched m2) →
                 str !! (index m2 + k) = matched m2 !! k)).
Proof.
  intros o t str result m o' He str' growth.
  pose proof (builtinExec_found _ _ _ _ He) as (a & b & Hstr & Hi & _).
  assert (Hfill : length (fill t (matched m)) = length (matched m) + growth).
  { unfold fill, growth. rewrite !length_app. lia. }
  assert (Hstr' : str' = a ++ replicate (length (fill t (matched m))) space ++ b).
  { subst str' str. apply loop_body_scan, Hi. }
  assert (Hfront : ∀ p, p < index m → str' !! p = str !! p).
  { intros p Hp. rewrite Hstr', Hstr. rewrite <- Hi in Hp.
    rewrite (lookup_app_l a _ p Hp), (lookup_app_l a _ p Hp). reflexivity. }
  assert (Hbehind : ∀ p, index m + length (matched m) ≤ p →
                         str' !! (p + growth) = str !! p).
  { intros p Hp. rewrite Hstr', Hstr, Hfill. rewrite <- Hi in Hp.
    rewrite (lookup_app_r a) by lia. rewrite (lookup_app_r a) by lia.
    rewrite !lookup_app_r by (rewrite ?length_replicate; lia).
    rewrite length_replicate. f_equal. lia. }
  split; [exact Hfill|]. split; [|split; [exact Hfront|split; [|split;
    [exact Hbehind|split]]]].
  - rewrite Hstr', Hstr, Hfill, !length_app, length_replicate. lia.
  - intros p [Hp1 Hp2]. rewrite Hstr', <- Hi in *.
    rewrite lookup_app_r by exact Hp1.
    rewrite lookup_app_l by (rewrite length_replicate; lia).
    apply lookup_replicate_2. lia.
  - intros a' b' -> Ha' Hplain. apply loop_body_result; assumption.
  - intros o2 m2 o2' He2.
    pose proof (builtinExec_found _ _ _ _ He2) as (a2 & b2 & Hs2 & Hi2 & _).
    assert (Hat : ∀ k, k < length (matched m2) →
                       str' !! (index m2 + k) = matched m2 !! k).
    { intros k Hk. rewrite Hs2, <- Hi2.
      rewrite lookup_app_r by lia.
      replace (length a2 + k - length a2) with k by lia.
      apply lookup_app_l, Hk. }
    split.
    + intros Hge k Hk. rewrite <- (Hat k Hk), <- Hbehind by lia.
      f_equal. lia.
    + intros Hle k Hk. rewrite <- (Hat k Hk). symmetry. apply Hfront. lia.
Qed.

(** After the round for [// a], what was at offset 5 is at offset 34. *)
Lemma later_text_shifts_by_growth_witness :
  let T := js "// a" ++ [10%N] ++ js "/* b */" in
  let m := {| index := 0; matched := js "// a" |} in
  fst (loop_body (tpl_span "comment") m T T) !! (5 + 29) = T !! 5.
Proof.
  intros T m.
  destruct (later_text_shifts_by_growth
              (fresh re_line_comment flags_gm) (tpl_span "comment") T T m
              (set_lastIndex (fresh re_line_comment flags_gm) 4) eq_refl)
    as (_ & _ & _ & _ & H & _).
  apply (H 5). simpl. lia.
Defined.




Section RegistryProperties.

Variable JSON : Type.
Variable JSONSample : Type.
Variable sampleJSON : JSON.
Variable allFromJSON : JSON -> list JSONSample.
Variable formatter : JSONSample -> jsstring.
Variable toHTML : JSONSample -> Value -> Outcome jsstring.

(** C8.  [getAllFormattedSamples] returns an array exactly when every
    sample renders, and the array then holds, sample by sample in the
    order of [allFromJSON], what [toHTML] returns for the sample and the
    formatter [get] resolves its [formatter] field to.  [getSampleHTML]
    returns those fragments one after the other with a newline between
    two neighbours. *)
Theorem getSampleHTML_joins_in_order :
  (∀ fragments,
     getAllFormattedSamples JSON JSONSample sampleJSON allFromJSON
       formatter toHTML = Done fragments
     ↔ Forall2 (fun s f => toHTML s (get (formatter s)) = Done f)
               (allFromJSON sampleJSON) fragments)
  ∧ (∀ html,
       getSampleHTML JSON JSONSample sampleJSON allFromJSON
         formatter toHTML = Done html
       ↔ ∃ fragments,
           Forall2 (fun s f => toHTML s (get (formatter s)) = Done f)
                   (allFromJSON sampleJSON) fragments
           ∧ html = newline_separated fragments).
Proof.
  split.
  - intros fragments. unfold getAllFormattedSamples, getAllSamples.
    apply array_map_Done.
  - intros html. unfold getSampleHTML, getAllFormattedSamples, getAllSamples.
    split.
    + destruct (array_map _ _) as [fragments| |] eqn:Hm; try discriminate.
      intros [= <-]. exists fragments. split.
      * apply array_map_Done, Hm.
      * apply join_newline.
    + intros (fragments & HF & ->). apply array_map_Done in HF.
      rewrite HF, join_newline. reflexivity.
Qed.

End RegistryProperties.

(** Two samples, one of them with a formatter name that is not known. *)
Lemma getSampleHTML_joins_in_order_witness :
  getSampleHTML unit (jsstring * jsstring) tt
    (fun _ => [(js "lavendeux", js "1"); (js "unknown-lang", js "2")])
    fst (fun s _ => Done (snd s))
  = Done (js "1" ++ [10%N] ++ js "2").
Proof.
  apply (getSampleHTML_joins_in_order unit (jsstring * jsstring) tt
           (fun _ => [(js "lavendeux", js "1"); (js "unknown-lang", js "2")])
           fst (fun s _ => Done (snd s))).
  exists [js "1"; js "2"]. split; [|reflexivity].
  repeat constructor.
Defined.

(** C9.  [get] applied to the name [get] is the lookup function, which is
    no formatter.  Whenever the fallback branch is the one taken, the name
    is none of [lavendeux], [javascript] and [get], and the value is the
    lavendeux formatter. *)
Theorem get_of_get_is_the_lookup :
  get (js "get") = VLookup
  ∧ is_formatter VLookup = false
  ∧ ∀ name,
      has_property FormatterInstances name = false →
      (name ∉ [js "lavendeux"; js "javascript"; js "get"])
      ∧ get name = VFormatter LavendeuxFormatter.
Proof.
  split; [vm_compute; reflexivity|]. split; [reflexivity|].
  intros name H. split.
  - intros Hin. apply list_elem_of_In in Hin.
    destruct Hin as [<-|[<-|[<-|[]]]]; vm_compute in H; discriminate H.
  - unfold get. rewrite H. vm_compute. reflexivity.
Qed.

(** The name [unknown-lang] takes the fallback branch. *)
Lemma get_of_get_is_the_lookup_witness :
  get (js "unknown-lang") = VFormatter LavendeuxFormatter.
Proof.
  exact (proj2 (proj2 (proj2 get_of_get_is_the_lookup)
                  (js "unknown-lang") eq_refl)).
Defined.




(** * Further properties *)

(** ** [replaceAt] and [trim] *)

(** *** replaceAt *)

Lemma indexOf_first needle :
  ∀ x b,
    (∀ j, j < length x → is_prefix needle (drop j (x ++ needle ++ b)) = false) →
    indexOf needle (x ++ needle ++ b) = Some (length x).
Proof.
  induction x as [|c x IH]; intros b Hno.
  - simpl. apply indexOf_at_front.
  - rewrite indexOf_unfold. pose proof (Hno 0) as H0. rewrite drop_0 in H0.
    rewrite H0 by (simpl; lia).
    simpl. rewrite IH; [reflexivity|].
    intros j Hj. apply (Hno (S j)). simpl. lia.
Qed.

(** X1.  [replaceAt] replaces the first occurrence of [search] that starts
    at or behind [index], which need not be the one at [index]: when the
    text from [index] on is [x], then [search], then [b], with no
    occurrence of [search] starting inside [x], and the replacement holds
    no dollar, the result is the text with that occurrence replaced and
    everything else as it was. *)
Theorem replaceAt_first_occurrence :
  ∀ a x search b replacement,
    (∀ j, j < length x →
          is_prefix search (drop j (x ++ search ++ b)) = false) →
    Forall (fun c => c ≠ dollar) replacement →
    replaceAt (a ++ x ++ search ++ b) search (length a) replacement
    = a ++ x ++ replacement ++ b.
Proof.
  intros a x search b replacement Hno Hplain.
  unfold replaceAt, substring_to, substring_from, JS.replace.
  rewrite take_app_length, drop_app_length, indexOf_first by exact Hno.
  rewrite getSubstitution_plain by exact Hplain.
  rewrite take_app_length.
  rewrite (app_assoc x search b), drop_app_length'
    by (rewrite length_app; reflexivity).
  reflexivity.
Qed.

Lemma replaceAt_first_occurrence_witness :
  replaceAt (js "ab)c)") (js ")") 1 (js ")</span>") = js "ab)</span>c)".
Proof.
  apply (replaceAt_first_occurrence (js "a") (js "b") (js ")") (js "c)")
           (js ")</span>")).
  - intros j Hj. destruct j as [|j]; [reflexivity|simpl in Hj; lia].
  - vm_compute. repeat constructor; discriminate.
Defined.

Lemma indexOf_None_replace s search replacement :
  indexOf search s = None → JS.replace s search replacement = s.
Proof. unfold JS.replace. intros ->. reflexivity. Qed.

(** X2.  [replaceAt] never changes what lies in front of [index], and when
    [search] does not occur from [index] on it returns the string as it
    is. *)
Theorem replaceAt_keeps_prefix :
  ∀ str search index replacement,
    (index ≤ length str →
     take index (replaceAt str search index replacement) = take index str)
    ∧ (indexOf search (drop index str) = None →
       replaceAt str search index replacement = str).
Proof.
  intros str search index replacement. split.
  - intros Hle. unfold replaceAt, substring_to.
    rewrite take_app_length' by (rewrite length_take; lia). reflexivity.
  - intros Hnone. unfold replaceAt, substring_to, substring_from.
    rewrite indexOf_None_replace by exact Hnone. apply take_drop.
Qed.

Lemma replaceAt_keeps_prefix_witness :
  take 3 (replaceAt (js "0x1 0x1") (js "0x1") 3 (js "R")) = js "0x1"
  ∧ replaceAt (js "0x1 ab") (js "0x1") 1 (js "R") = js "0x1 ab".
Proof.
  split.
  - apply (replaceAt_keeps_prefix (js "0x1 0x1") (js "0x1") 3 (js "R")).
    simpl. lia.
  - apply (replaceAt_keeps_prefix (js "0x1 ab") (js "0x1") 1 (js "R")).
    reflexivity.
Defined.

(** *** trim *)

Lemma trimStart_blank_prefix a s :
  Forall (fun c => is_trimmable c = true) a → trimStart (a ++ s) = trimStart s.
Proof.
  induction 1 as [|c a Hc Ha IH]; simpl; [reflexivity|].
  rewrite Hc. exact IH.
Qed.

Lemma trimStart_all_blank a :
  Forall (fun c => is_trimmable c = true) a → trimStart a = [].
Proof.
  intros H. rewrite <- (app_nil_r a). rewrite trimStart_blank_prefix by exact H.
  reflexivity.
Qed.

Lemma trimEnd_blank_suffix s b :
  Forall (fun c => is_trimmable c = true) b → trimEnd (s ++ b) = trimEnd s.
Proof.
  intros Hb. unfold trimEnd. rewrite rev_app_distr.
  rewrite trimStart_blank_prefix; [reflexivity|].
  apply Forall_forall. intros c Hc. rewrite Forall_forall in Hb. apply Hb.
  apply list_elem_of_In. apply list_elem_of_In in Hc. apply in_rev. exact Hc.
Qed.

Lemma trim_blank_suffix s b :
  Forall (fun c => is_trimmable c = true) b → trim (s ++ b) = trim s.
Proof.
  intros Hb. unfold trim. induction s as [|c s IH]; simpl.
  - rewrite trimStart_all_blank by exact Hb. reflexivity.
  - destruct (is_trimmable c); [exact IH|].
    change (c :: s ++ b) with ((c :: s) ++ b).
    apply trimEnd_blank_suffix, Hb.
Qed.

Lemma trim_surrounded a s b :
  Forall (fun c => is_trimmable c = true) a →
  Forall (fun c => is_trimmable c = true) b →
  trim (a ++ s ++ b) = trim s.
Proof.
  intros Ha Hb. rewrite <- (trim_blank_suffix s b Hb).
  unfold trim. rewrite trimStart_blank_prefix by exact Ha. reflexivity.
Qed.

Lemma encode_depends_on_trim s s' w :
  trim s = trim s' → encode s w = encode s' w.
Proof. intros H. unfold encode. rewrite H. reflexivity. Qed.

(** X3.  White space around the text does not count: [encode] of a text
    between two runs of white space is [encode] of the text, and the value
    for a text of white space only is the empty string. *)
Theorem encode_ignores_surrounding_blanks :
  ∀ a s b w,
    Forall (fun c => is_trimmable c = true) a →
    Forall (fun c => is_trimmable c = true) b →
    encode (a ++ s ++ b) w = encode s w
    ∧ fst (encode (a ++ b) w) = Done [].
Proof.
  intros a s b w Ha Hb. split.
  - apply encode_depends_on_trim, trim_surrounded; assumption.
  - rewrite (encode_depends_on_trim (a ++ b) [] w).
    + rewrite encode_any_world. vm_compute. reflexivity.
    + rewrite <- (trim_surrounded a [] b Ha Hb). reflexivity.
Qed.

Lemma encode_ignores_surrounding_blanks_witness :
  encode (js "  " ++ js "f(x)" ++ [10%N; 9%N]) empty_world
  = encode (js "f(x)") empty_world.
Proof.
  apply (encode_ignores_surrounding_blanks (js "  ") (js "f(x)") [10%N; 9%N]
           empty_world).
  - repeat constructor.
  - repeat constructor.
Defined.

(** ** The registry, again *)

(** *** get *)

(** X5.  [get] returns a formatter for every name but thirteen: the name
    [get] of the lookup function itself and the twelve names the object
    inherits from [Object.prototype]. *)
Theorem get_is_formatter_iff :
  ∀ name,
    is_formatter (get name) = true
    ↔ name ∉ map js ["get"; "__proto__"; "constructor"; "hasOwnProperty";
                     "isPrototypeOf"; "propertyIsEnumerable";
                     "toLocaleString"; "toString"; "valueOf";
                     "__defineGetter__"; "__defineSetter__";
                     "__lookupGetter__"; "__lookupSetter__"]%string.
Proof.
  intros name. split.
  - intros H Hin. apply list_elem_of_In in Hin. cbn [map] in Hin.
    repeat (destruct Hin as [<-|Hin];
            [vm_compute in H; discriminate H |]).
    contradiction.
  - intros Hn.
    destruct (decide (name = js "lavendeux")) as [->|Hl];
      [vm_compute; reflexivity|].
    destruct (decide (name = js "javascript")) as [->|Hj];
      [vm_compute; reflexivity|].
    rewrite get_fallback; [reflexivity|].
    intros Hin. apply Hn. unfold property_names in Hin.
    apply list_elem_of_In in Hin. apply list_elem_of_In.
    cbn [map] in *.
    destruct Hin as [<-|[<-|Hin]]; [contradiction|contradiction|exact Hin].
Qed.

Lemma get_is_formatter_iff_witness :
  is_formatter (get (js "nosuchlang")) = true.
Proof.
  apply (get_is_formatter_iff (js "nosuchlang")).
  intros Hin. apply list_elem_of_In in Hin. cbn [map] in Hin.
  repeat (destruct Hin as [Hin|Hin]; [discriminate Hin|]). contradiction.
Defined.

(** *** the batch *)

Lemma array_map_Thrown {A B} (f : A → Outcome B) pre x post ys :
  Forall2 (fun a y => f a = Done y) pre ys →
  f x = Thrown → array_map f (pre ++ x :: post) = Thrown.
Proof.
  induction 1 as [|a y pre ys Ha _ IH]; intros Hx; simpl.
  - rewrite Hx. reflexivity.
  - rewrite Ha, IH by exact Hx. reflexivity.
Qed.

Section Batch.

Variable JSON : Type.
Variable JSONSample : Type.
Variable sampleJSON : JSON.
Variable allFromJSON : JSON -> list JSONSample.
Variable formatter : JSONSample -> jsstring.
Variable toHTML : JSONSample -> Value -> Outcome jsstring.
Variable example : JSON -> option (list jsstring).

(** X6.  The batch fails as a whole: when the samples in front of one
    render and that one throws, [getAllFormattedSamples] and
    [getSampleHTML] throw; no fragment is returned and the sample is not
    skipped. *)
Theorem getSampleHTML_fails_as_a_whole :
  ∀ before s after fragments,
    allFromJSON sampleJSON = before ++ s :: after →
    Forall2 (fun x f => toHTML x (get (formatter x)) = Done f) before fragments →
    toHTML s (get (formatter s)) = Thrown →
    getAllFormattedSamples JSON JSONSample sampleJSON allFromJSON
      formatter toHTML = Thrown
    ∧ getSampleHTML JSON JSONSample sampleJSON allFromJSON
        formatter toHTML = Thrown.
Proof.
  intros before s after fragments Hs Hb Ht.
  assert (H : getAllFormattedSamples JSON JSONSample sampleJSON allFromJSON
                formatter toHTML = Thrown).
  { unfold getAllFormattedSamples, getAllSamples. rewrite Hs.
    eapply array_map_Thrown; eauto. }
  split; [exact H|]. unfold getSampleHTML. rewrite H. reflexivity.
Qed.

End Batch.

(** A sample whose formatter is [get], with a [toHTML] that throws on what
    is no formatter. *)
Lemma getSampleHTML_fails_as_a_whole_witness :
  getSampleHTML unit (jsstring * jsstring) tt
    (fun _ => [(js "lavendeux", js "1"); (js "get", js "2")])
    fst (fun s v => if is_formatter v then Done (snd s) else Thrown)
  = Thrown.
Proof.
  apply (getSampleHTML_fails_as_a_whole unit (jsstring * jsstring) tt
           (fun _ => [(js "lavendeux", js "1"); (js "get", js "2")])
           fst (fun s v => if is_formatter v then Done (snd s) else Thrown)
           [(js "lavendeux", js "1")] (js "get", js "2") [] [js "1"]).
  - reflexivity.
  - constructor; [vm_compute; reflexivity | constructor].
  - vm_compute. reflexivity.
Defined.

(** *** join and split *)

Lemma split_on_no_sep sep x :
  Forall (fun c => c ≠ sep) x → split_on sep x = [x].
Proof.
  induction 1 as [|c x Hc _ IH]; [reflexivity|].
  cbn [split_on]. destruct (code_eqb c sep) eqn:E.
  - apply N.eqb_eq in E. contradiction.
  - rewrite IH. reflexivity.
Qed.

Lemma split_on_app sep x y :
  Forall (fun c => c ≠ sep) x →
  split_on sep (x ++ sep :: y) = x :: split_on sep y.
Proof.
  induction 1 as [|c x Hc _ IH].
  - cbn [app split_on]. rewrite code_eqb_refl. reflexivity.
  - cbn [app split_on]. destruct (code_eqb c sep) eqn:E.
    + apply N.eqb_eq in E. contradiction.
    + rewrite IH. reflexivity.
Qed.

Lemma split_newline_separated lines :
  lines ≠ [] →
  Forall (Forall (fun c => c ≠ 10%N)) lines →
  split_on 10%N (newline_separated lines) = lines.
Proof.
  intros Hne Hl. induction Hl as [|x rest Hx Hrest IH]; [contradiction|].
  destruct rest as [|y rest].
  - apply split_on_no_sep, Hx.
  - change (newline_separated (x :: y :: rest))
      with (x ++ 10%N :: newline_separated (y :: rest)).
    rewrite split_on_app by exact Hx. rewrite IH by discriminate. reflexivity.
Qed.

Section ExampleSample.

Variable JSON : Type.
Variable sampleJSON : JSON.
Variable example : JSON -> option (list jsstring).

(** X8.  The lines of the example can be read back: when the example has
    at least one line and no line holds a newline, splitting what
    [getExampleSample] returns at the newlines gives the lines. *)
Theorem getExampleSample_lines_recovered :
  ∀ lines,
    example sampleJSON = Some lines →
    lines ≠ [] →
    Forall (Forall (fun c => c ≠ 10%N)) lines →
    ∃ text, getExampleSample JSON sampleJSON example = Done text
            ∧ split_on 10%N text = lines.
Proof.
  intros lines He Hne Hl. unfold getExampleSample. rewrite He.
  eexists. split; [reflexivity|].
  rewrite join_newline. apply split_newline_separated; assumption.
Qed.

End ExampleSample.

Lemma getExampleSample_lines_recovered_witness :
  ∃ text, getExampleSample unit tt (fun _ => Some [js "x = 1"; js "x + 1"])
          = Done text
          ∧ split_on 10%N text = [js "x = 1"; js "x + 1"].
Proof.
  apply (getExampleSample_lines_recovered unit tt
           (fun _ => Some [js "x = 1"; js "x + 1"])).
  - reflexivity.
  - discriminate.
  - vm_compute. repeat constructor; discriminate.
Defined.

(** ** [encode] only wraps *)

(** *** The characters of a match *)

Section Chars.

Variable fl : Flags.

Lemma star_loop_consumed_all (mr : jsstring -> Cont -> option jsstring)
    (P : N -> Prop) :
  (∀ s k e, mr s k = Some e → consumed_all P s k e) →
  ∀ greedy k fuel s e,
    star_loop mr greedy k fuel s = Some e → consumed_all P s k e.
Proof.
  intros Hmr greedy k fuel.
  induction fuel as [|fuel IH]; intros s e H.
  - exists [], s. repeat split; auto.
  - rewrite star_loop_S in H.
    assert (Hk : k s = Some e → consumed_all P s k e).
    { intros Hk. exists [], s. repeat split; auto. }
    assert (Hagain :
      mr s (fun s' => if length s' <? length s
                      then star_loop mr greedy k fuel s' else None) = Some e →
      consumed_all P s k e).
    { intros Ha. apply Hmr in Ha.
      destruct Ha as (pre1 & s1 & -> & Hk1 & HP1).
      destruct (length s1 <? length (pre1 ++ s1)); [|discriminate].
      apply IH in Hk1. destruct Hk1 as (pre2 & s2 & -> & Hk2 & HP2).
      exists (pre1 ++ pre2), s2. rewrite <- app_assoc.
      repeat split; auto. apply Forall_app; auto. }
    destruct greedy.
    + destruct (mr s _) eqn:Ha; [injection H as ->; auto | auto].
    + destruct (k s) eqn:Hks; [injection H as ->; auto | auto].
Qed.

Lemma matcher_chars (r : Regex) :
  ∀ s k e, matcher fl r s k = Some e →
    consumed_all (fun c => chars fl r c = true) s k e.
Proof.
  induction r as [cs | r1 IH1 r2 IH2 | greedy r1 IH1 | r1 IH1 | r1 IH1];
    intros s k e H; cbn [matcher] in H.
  - destruct s as [|c s]; [discriminate|].
    destruct (char_matches fl cs c) eqn:Hc; [|discriminate].
    exists [c], s. split; [reflexivity|]. split; [exact H|].
    constructor; [exact Hc | constructor].
  - apply IH1 in H. destruct H as (pre1 & s1 & -> & H & HP1).
    apply IH2 in H. destruct H as (pre2 & s2 & -> & H & HP2).
    exists (pre1 ++ pre2), s2. rewrite <- app_assoc.
    split; [reflexivity|]. split; [exact H|].
    apply Forall_app. split.
    + eapply Forall_impl; [exact HP1|]. intros c Hc. cbn [chars].
      rewrite Hc. reflexivity.
    + eapply Forall_impl; [exact HP2|]. intros c Hc. cbn [chars].
      rewrite Hc. apply orb_true_r.
  - eapply star_loop_consumed_all in H; [exact H|]. exact IH1.
  - apply IH1 in H. destruct H as (pre1 & s1 & -> & H & HP1).
    eapply star_loop_consumed_all in H; [|exact IH1].
    destruct H as (pre2 & s2 & -> & H & HP2).
    exists (pre1 ++ pre2), s2. rewrite <- app_assoc.
    split; [reflexivity|]. split; [exact H|]. apply Forall_app; auto.
  - destruct (matcher fl r1 s k) eqn:Hm.
    + injection H as ->. apply IH1 in Hm. exact Hm.
    + exists [], s. repeat split; auto.
Qed.

Lemma matched_is_consumed (s pre rest : jsstring) :
  s = pre ++ rest → take (length s - length rest) s = pre.
Proof.
  intros ->. rewrite length_app.
  replace (length pre + length rest - length rest) with (length pre) by lia.
  apply take_app_length.
Qed.

Lemma matched_is_consumed_cons c (s pre rest : jsstring) :
  c :: s = pre ++ rest → take (S (length s) - length rest) (c :: s) = pre.
Proof.
  intros H. change (S (length s)) with (length (c :: s)).
  apply matched_is_consumed, H.
Qed.

Lemma search_chars (r : Regex) :
  ∀ s i m, search fl r s i = Some m →
    Forall (fun c => chars fl r c = true) (matched m).
Proof.
  induction s as [|c s IH]; intros i m H; rewrite search_unfold in H.
  - destruct (matcher fl r [] Some) as [rest|] eqn:Hm; [|discriminate].
    injection H as <-. simpl. constructor.
  - destruct (matcher fl r (c :: s) Some) as [rest|] eqn:Hm.
    + injection H as <-. apply matcher_chars in Hm.
      destruct Hm as (pre & s' & Heq & [= ->] & HP).
      cbn [matched]. rewrite (matched_is_consumed_cons _ _ _ _ Heq). exact HP.
    + eapply IH; eauto.
Qed.

(** A pattern that starts with two literal characters matches text that
    starts with them. *)
Lemma search_two_literals c1 c2 (r : Regex) :
  ∀ s i m,
    search fl (Seq (Atom (Lit c1)) (Seq (Atom (Lit c2)) r)) s i = Some m →
    ∃ t, matched m = c1 :: c2 :: t.
Proof.
  induction s as [|c s IH]; intros i m H; rewrite search_unfold in H.
  - cbn [matcher] in H. discriminate.
  - destruct (matcher fl _ (c :: s) Some) as [rest|] eqn:Hm.
    + injection H as <-. cbn [matcher] in Hm.
      cbn [char_matches] in Hm.
      destruct (code_eqb c c1) eqn:E1; [|discriminate].
      destruct s as [|d s]; [discriminate|].
      destruct (code_eqb d c2) eqn:E2; [|discriminate].
      apply N.eqb_eq in E1, E2. subst c d.
      apply matcher_chars in Hm.
      destruct Hm as (pre & s' & Heq & [= ->] & _).
      cbn [matched].
      rewrite (matched_is_consumed_cons c1 (c2 :: s) (c1 :: c2 :: pre) rest)
        by (rewrite Heq; reflexivity).
      eauto.
    + eapply IH; eauto.
Qed.

End Chars.

Lemma builtinExec_search o S m o' :
  builtinExec o S = (Some m, o') →
  ∃ s i, search (flags o) (source o) s i = Some m.
Proof.
  unfold builtinExec. intros H.
  destruct (length S <? _); [discriminate|].
  destruct (search _ _ _ _) as [m'|] eqn:Hs; [|discriminate].
  injection H as -> _. eauto.
Qed.

(** *** The views of a list of pieces *)

Lemma scan_of_app a b : scan_of (a ++ b) = scan_of a ++ scan_of b.
Proof. apply flat_map_app. Qed.
Lemma result_of_app a b : result_of (a ++ b) = result_of a ++ result_of b.
Proof. apply flat_map_app. Qed.
Lemma erase_of_app a b : erase_of (a ++ b) = erase_of a ++ erase_of b.
Proof. apply flat_map_app. Qed.

Lemma scan_of_untaken w : scan_of (map Orig w) = w.
Proof. induction w as [|c w IH]; simpl; congruence. Qed.
Lemma result_of_untaken w : result_of (map Orig w) = w.
Proof. induction w as [|c w IH]; simpl; congruence. Qed.
Lemma erase_of_untaken w : erase_of (map Orig w) = w.
Proof. induction w as [|c w IH]; simpl; congruence. Qed.

Lemma views_same_length items :
  length (scan_of items) = length (result_of items).
Proof.
  induction items as [|i items IH]; [reflexivity|].
  change (length (scan_view i ++ scan_of items)
          = length (result_view i ++ result_of items)).
  rewrite !length_app, IH. destruct i; simpl; [reflexivity|].
  rewrite length_replicate. reflexivity.
Qed.

Section Pieces.

Variable ts : list Template.

(** *** Finding a match among the pieces *)

Lemma taken_view_blank t m :
  m ≠ [] → ∃ n, scan_view (Wrapped t m) = space :: replicate n space.
Proof.
  intros Hm. cbn [scan_view]. unfold fill. rewrite !length_app.
  destruct m as [|c m]; [contradiction|].
  exists (length (before t) + (length m + length (after t))).
  replace (length (before t) + (length (c :: m) + length (after t)))
    with (S (length (before t) + (length m + length (after t))))
    by (simpl; lia).
  reflexivity.
Qed.

Lemma locate_front :
  ∀ m items b,
    Forall (fun c => c ≠ space) m → Forall (item_in ts) items →
    scan_of items = m ++ b →
    ∃ I2, items = map Orig m ++ I2 ∧ scan_of I2 = b.
Proof.
  induction m as [|c m IH]; intros items b Hm Hok Hs.
  - exists items. split; [reflexivity|exact Hs].
  - apply Forall_cons in Hm as [Hc Hm].
    destruct items as [|it items]; [discriminate Hs|].
    apply Forall_cons in Hok as [Hit Hok].
    change (scan_view it ++ scan_of items = c :: m ++ b) in Hs.
    destruct it as [d|t x].
    + injection Hs as -> Hs. destruct (IH items b Hm Hok Hs) as (I2 & -> & H2).
      exists I2. split; [reflexivity|exact H2].
    + destruct Hit as [Hx _]. destruct (taken_view_blank t x Hx) as [n Hn].
      rewrite Hn in Hs. injection Hs as Hs _. symmetry in Hs. contradiction.
Qed.

Lemma locate_match :
  ∀ items a m b,
    m ≠ [] → Forall (fun c => c ≠ space) m → Forall (item_in ts) items →
    scan_of items = a ++ m ++ b →
    ∃ I1 I2, items = I1 ++ map Orig m ++ I2
             ∧ scan_of I1 = a ∧ scan_of I2 = b.
Proof.
  induction items as [|it items IH]; intros a m b Hne Hm Hok Hs.
  - destruct a; destruct m; try contradiction; discriminate Hs.
  - destruct a as [|x a].
    + destruct (locate_front m (it :: items) b Hm Hok Hs) as (I2 & -> & H2).
      exists [], I2. repeat split; auto.
    + apply Forall_cons in Hok as [Hit Hok].
      change (scan_view it ++ scan_of items = (x :: a) ++ m ++ b) in Hs.
      destruct it as [d|t y].
      * injection Hs as -> Hs.
        destruct (IH a m b Hne Hm Hok Hs) as (I1 & I2 & -> & H1 & H2).
        exists (Orig x :: I1), I2. repeat split; auto.
        change (x :: scan_of I1 = x :: a). congruence.
      * set (v := scan_view (Wrapped t y)) in *.
        assert (Hv : Forall (fun c => c = space) v).
        { subst v. cbn [scan_view]. apply Forall_replicate. reflexivity. }
        assert (Hlen : length v ≤ length (x :: a)).
        { destruct (Nat.le_gt_cases (length v) (length (x :: a)))
            as [|Hlt]; [assumption|exfalso].
          destruct m as [|c m]; [contradiction|].
          apply Forall_cons in Hm as [Hc _].
          assert (H1 : (v ++ scan_of items) !! length (x :: a) = Some c).
          { rewrite Hs. apply list_lookup_middle. reflexivity. }
          rewrite lookup_app_l in H1 by exact Hlt.
          rewrite Forall_forall in Hv. apply Hc, Hv.
          eapply list_elem_of_lookup_2; eauto. }
        assert (Hv' : v = take (length v) (x :: a)).
        { rewrite <- (take_app_le (x :: a) (m ++ b)) by exact Hlen.
          rewrite <- Hs, take_app_length. reflexivity. }
        assert (Hrest : scan_of items = drop (length v) (x :: a) ++ m ++ b).
        { rewrite <- (drop_app_le (x :: a) (m ++ b)) by exact Hlen.
          rewrite <- Hs, drop_app_length. reflexivity. }
        destruct (IH _ m b Hne Hm Hok Hrest) as (I1 & I2 & -> & H1 & H2).
        exists (Wrapped t y :: I1), I2. repeat split; auto.
        change (v ++ scan_of I1 = x :: a). rewrite H1.
        rewrite Hv' at 1. apply take_drop.
Qed.

(** One round, once the match is found among the pieces: it becomes a
    taken piece. *)
Lemma round_located t m I1 I2 :
  length (scan_of I1) = index m →
  Forall (fun c => c ≠ dollar) (fill t (matched m)) →
  loop_body t m (scan_of (I1 ++ map Orig (matched m) ++ I2))
                (result_of (I1 ++ map Orig (matched m) ++ I2))
  = (scan_of (I1 ++ Wrapped t (matched m) :: I2),
     result_of (I1 ++ Wrapped t (matched m) :: I2))
  ∧ erase_of (I1 ++ Wrapped t (matched m) :: I2)
    = erase_of (I1 ++ map Orig (matched m) ++ I2).
Proof.
  intros Hi Hplain. split.
  - rewrite (surjective_pairing (loop_body _ _ _ _)).
    rewrite !scan_of_app, !result_of_app, scan_of_untaken, result_of_untaken.
    rewrite loop_body_scan by exact Hi.
    rewrite loop_body_result
      by first [rewrite <- views_same_length; assumption | assumption].
    reflexivity.
  - rewrite !erase_of_app, erase_of_untaken. reflexivity.
Qed.

Lemma fill_plain t m :
  Forall (fun c => c ≠ dollar) (before t) →
  Forall (fun c => c ≠ dollar) (after t) →
  Forall (fun c => c ≠ dollar) m →
  Forall (fun c => c ≠ dollar) (fill t m).
Proof.
  intros Hb Ha Hm. unfold fill. rewrite !Forall_app. auto.
Qed.

Lemma chars_exclude fl r (d : N) m :
  chars fl r d = false →
  Forall (fun c => chars fl r c = true) m → Forall (fun c => c ≠ d) m.
Proof.
  intros Hd Hm. eapply Forall_impl; [exact Hm|].
  intros c Hc ->. congruence.
Qed.

(** *** The loop of a rule whose matches hold no blank *)

Lemma loop_taken_plain fuel :
  ∀ o t items out o',
    nullable (source o) = false →
    chars (flags o) (source o) space = false →
    chars (flags o) (source o) dollar = false →
    Forall (fun c => c ≠ dollar) (before t) →
    Forall (fun c => c ≠ dollar) (after t) →
    In t ts →
    Forall (item_in ts) items →
    loop_pure fuel o t (scan_of items) (result_of items) = (Done out, o') →
    ∃ items', out = (scan_of items', result_of items')
              ∧ erase_of items' = erase_of items
              ∧ Forall (item_in ts) items'.
Proof.
  induction fuel as [|fuel IH];
    intros o t items out o' Hn Hsp Hdl Hb Ha Hin Hok H.
  - discriminate H.
  - cbn [loop_pure] in H.
    destruct (builtinExec o (scan_of items)) as [[m|] o1] eqn:He.
    + pose proof (builtinExec_found _ _ _ _ He)
        as (a & b & Hs & Hi & Hglob & Hne & _).
      destruct (builtinExec_search _ _ _ _ He) as (s0 & i0 & Hsearch).
      apply search_chars in Hsearch.
      assert (Hm : matched m ≠ []).
      { intros Hnil. rewrite Hne in Hn by exact Hnil. discriminate. }
      destruct (locate_match items a (matched m) b Hm
                  (chars_exclude _ _ _ _ Hsp Hsearch) Hok Hs)
        as (I1 & I2 & -> & H1 & H2).
      destruct (round_located t m I1 I2) as [Hround Herase].
      { rewrite H1. exact Hi. }
      { apply fill_plain; auto. eapply chars_exclude; eauto. }
      rewrite Hround in H.
      assert (Ho1 : source o1 = source o ∧ flags o1 = flags o).
      { clear -He. unfold builtinExec in He.
        destruct (length _ <? _); [discriminate|].
        destruct (search _ _ _ _); [|discriminate].
        injection He as _ <-. destruct (global (flags o)); auto. }
      destruct Ho1 as [Hsrc Hfl].
      apply IH in H; try (rewrite ?Hsrc, ?Hfl; assumption).
      * destruct H as (items' & -> & He' & Hok').
        exists items'. split; [reflexivity|]. split; [congruence|exact Hok'].
      * rewrite !Forall_app in Hok. destruct Hok as (Hok1 & _ & Hok2).
        rewrite Forall_app. split; [exact Hok1|].
        constructor; [split; assumption | exact Hok2].
    + injection H as <- _. exists items. auto.
Qed.

(** *** The loop of the first rule that finds anything

    What lies behind the last taken piece is still as in the text. *)

Lemma loop_taken_first fuel :
  ∀ o t Ipre w out o',
    global (flags o) = true →
    nullable (source o) = false →
    first_char (flags o) (source o) space = false →
    Forall (fun c => c = space) (drop (lastIndex o) (scan_of Ipre)) →
    Forall (fun c => c ≠ dollar) w →
    Forall (fun c => c ≠ dollar) (before t) →
    Forall (fun c => c ≠ dollar) (after t) →
    In t ts →
    Forall (item_in ts) Ipre →
    loop_pure fuel o t (scan_of Ipre ++ w) (result_of Ipre ++ w)
    = (Done out, o') →
    ∃ items', out = (scan_of items', result_of items')
              ∧ erase_of items' = erase_of Ipre ++ w
              ∧ Forall (item_in ts) items'.
Proof.
  induction fuel as [|fuel IH];
    intros o t Ipre w out o' Hg Hn Hsp Hblank Hw Hb Ha Hin Hok H.
  - discriminate H.
  - cbn [loop_pure] in H.
    destruct (builtinExec o (scan_of Ipre ++ w)) as [[m|] o1] eqn:He.
    + pose proof (builtinExec_found _ _ _ _ He)
        as (a & b & Hs & Hi & Hglob & Hne & Hfirst).
      destruct (Hglob Hg) as [Hli ->].
      destruct (matched m) as [|c mt] eqn:Hm.
      { rewrite Hne in Hn by reflexivity. discriminate. }
      assert (Hc : c ≠ space).
      { intros ->. rewrite (Hfirst _ _ eq_refl) in Hsp. discriminate. }
      set (U := scan_of Ipre) in *.
      assert (HU : length U ≤ length a).
      { destruct (Nat.le_gt_cases (length U) (length a)) as [|Hlt];
          [assumption|exfalso].
        assert (H1 : (U ++ w) !! length a = Some c).
        { rewrite Hs. apply list_lookup_middle. reflexivity. }
        rewrite lookup_app_l in H1 by exact Hlt.
        assert (H2 : drop (lastIndex o) U !! (length a - lastIndex o) = Some c).
        { rewrite lookup_drop. rewrite <- H1. f_equal. lia. }
        rewrite Forall_forall in Hblank. apply Hc, Hblank.
        eapply list_elem_of_lookup_2; eauto. }
      assert (Ha' : a = U ++ drop (length U) a).
      { rewrite <- (take_drop (length U) a) at 1. f_equal.
        rewrite <- (take_app_le a ((c :: mt) ++ b)) by exact HU.
        rewrite <- Hs. apply take_app_length. }
      set (x := drop (length U) a) in *.
      assert (Hw' : w = x ++ (c :: mt) ++ b).
      { apply (app_inv_head U). rewrite Hs, Ha' at 1.
        rewrite <- app_assoc. reflexivity. }
      assert (Hplain : Forall (fun c => c ≠ dollar) (fill t (matched m))).
      { apply fill_plain; auto. rewrite Hm. rewrite Hw' in Hw.
        rewrite !Forall_app in Hw. tauto. }
      assert (Hbplain : Forall (fun c => c ≠ dollar) b).
      { rewrite Hw' in Hw. rewrite !Forall_app in Hw. tauto. }
      destruct (round_located t m (Ipre ++ map Orig x) (map Orig b))
        as [Hround Herase]; [|exact Hplain|].
      { rewrite scan_of_app, scan_of_untaken. fold U. rewrite <- Ha'. exact Hi. }
      rewrite !scan_of_app, !result_of_app in Hround.
      rewrite !scan_of_untaken, !result_of_untaken in Hround.
      fold U in Hround. rewrite Hm in Hround at 1 2.
      rewrite <- !app_assoc in Hround. rewrite <- Hw' in Hround.
      rewrite Hround in H. clear Hround.
      change (Wrapped t (matched m) :: map Orig b)
        with ([Wrapped t (matched m)] ++ map Orig b) in H, Herase.
      set (Ipre' := Ipre ++ map Orig x ++ [Wrapped t (matched m)]).
      assert (E1 : U ++ x ++ scan_of ([Wrapped t (matched m)] ++ map Orig b)
                   = scan_of Ipre' ++ b).
      { subst Ipre' U. rewrite !scan_of_app, !scan_of_untaken, <- !app_assoc.
        reflexivity. }
      assert (E2 : result_of Ipre ++ x
                   ++ result_of ([Wrapped t (matched m)] ++ map Orig b)
                   = result_of Ipre' ++ b).
      { subst Ipre'. rewrite !result_of_app, !result_of_untaken, <- !app_assoc.
        reflexivity. }
      rewrite E1, E2 in H. clear E1 E2.
      apply IH in H; auto.
      * destruct H as (items' & -> & He' & Hok').
        exists items'. split; [reflexivity|]. split; [|exact Hok'].
        rewrite He'. subst Ipre'.
        rewrite !erase_of_app, !erase_of_untaken in *.
        cbn [erase_of flat_map erase_view]. rewrite app_nil_r.
        rewrite Hm, Hw', <- !app_assoc. reflexivity.
      * cbn [lastIndex set_lastIndex]. subst Ipre'.
        rewrite !scan_of_app, scan_of_untaken. fold U.
        rewrite app_assoc, <- Ha', <- Hi.
        rewrite drop_app_add. cbn [scan_of flat_map scan_view].
        rewrite app_nil_r, drop_replicate. apply Forall_replicate. reflexivity.
      * subst Ipre'. rewrite !Forall_app. split; [exact Hok|split].
        -- apply Forall_forall. intros i Hin'. apply list_elem_of_In in Hin'.
           apply in_map_iff in Hin'. destruct Hin' as (d & <- & _). exact I.
        -- constructor; [|constructor]. split; [|exact Hin].
           rewrite Hm. discriminate.
    + injection H as <- _. exists (Ipre ++ map Orig w).
      rewrite scan_of_app, result_of_app, erase_of_app.
      rewrite scan_of_untaken, result_of_untaken, erase_of_untaken.
      repeat split; auto.
      rewrite Forall_app. split; [exact Hok|].
      apply Forall_forall. intros i Hi. apply list_elem_of_In in Hi.
      apply in_map_iff in Hi. destruct Hi as (c & <- & _). exact I.
Qed.

(** *** A text that does not include a factor *)

Lemma indexOf_complete f :
  ∀ a b, is_Some (indexOf f (a ++ f ++ b)).
Proof.
  induction a as [|c a IH]; intros b.
  - simpl. rewrite indexOf_at_front. eauto.
  - rewrite indexOf_unfold. destruct (is_prefix f _); [eauto|].
    simpl. destruct (IH b) as [p ->]. simpl. eauto.
Qed.

Lemma not_includes s f a b : includes s f = false → s ≠ a ++ f ++ b.
Proof.
  unfold includes. intros H ->.
  destruct (indexOf_complete f a b) as [p Hp]. rewrite Hp in H. discriminate.
Qed.

Lemma no_line_comment T :
  includes T (js "//") = false → has_match flags_gm re_line_comment T = false.
Proof.
  intros Hno. unfold has_match.
  destruct (search flags_gm re_line_comment T 0) as [m|] eqn:Hs; [|reflexivity].
  exfalso. pose proof (search_found _ _ _ _ _ Hs) as (a & b & HT & _).
  apply search_two_literals in Hs. destruct Hs as [t Hm].
  rewrite Hm in HT.
  apply (not_includes T (js "//") a (t ++ b) Hno). rewrite HT. reflexivity.
Qed.

Lemma no_block_comment items :
  Forall (item_in ts) items →
  includes (erase_of items) (js "/*") = false →
  has_match flags_gms re_block_comment (scan_of items) = false.
Proof.
  intros Hok Hno. unfold has_match.
  destruct (search flags_gms re_block_comment (scan_of items) 0) as [m|] eqn:Hs;
    [|reflexivity].
  exfalso. pose proof (search_found _ _ _ _ _ Hs) as (a & b & HT & _).
  apply search_two_literals in Hs. destruct Hs as [t Hm].
  rewrite Hm in HT.
  destruct (locate_match items a (js "/*") (t ++ b)) as (I1 & I2 & -> & _ & _).
  - discriminate.
  - repeat constructor; discriminate.
  - exact Hok.
  - rewrite HT. reflexivity.
  - rewrite !erase_of_app, erase_of_untaken in Hno.
    exact (not_includes _ _ _ _ Hno eq_refl).
Qed.

(** *** One rule on the pieces *)

Lemma rule_taken_plain r fl t items :
  global fl = true → nullable r = false →
  first_char fl r space = false →
  chars fl r space = false → chars fl r dollar = false →
  Forall (fun c => c ≠ dollar) (before t) →
  Forall (fun c => c ≠ dollar) (after t) →
  In t ts →
  Forall (item_in ts) items →
  ∃ items',
    fst (rule_pure r fl t (scan_of items) (result_of items))
    = Done (scan_of items', result_of items')
    ∧ erase_of items' = erase_of items
    ∧ Forall (item_in ts) items'.
Proof.
  intros Hg Hn Hf Hsp Hdl Hb Ha Hin Hok. unfold rule_pure.
  destruct (loop_pure_total (S (length (scan_of items))) (fresh r fl) t
              (scan_of items) (result_of items)) as (p & o' & H); auto.
  { cbn [fresh lastIndex drop]. apply Nat.lt_succ_r, weight_le_length. }
  rewrite H. cbn [fst].
  apply loop_taken_plain in H; auto.
  destruct H as (items' & -> & He & Hok'). eauto.
Qed.

Lemma rule_taken_first r fl t w :
  global fl = true → nullable r = false →
  first_char fl r space = false →
  Forall (fun c => c ≠ dollar) w →
  Forall (fun c => c ≠ dollar) (before t) →
  Forall (fun c => c ≠ dollar) (after t) →
  In t ts →
  ∃ items',
    fst (rule_pure r fl t w w) = Done (scan_of items', result_of items')
    ∧ erase_of items' = w
    ∧ Forall (item_in ts) items'.
Proof.
  intros Hg Hn Hf Hw Hb Ha Hin. unfold rule_pure.
  destruct (loop_pure_total (S (length w)) (fresh r fl) t w w)
    as (p & o' & H); auto.
  { cbn [fresh lastIndex drop]. apply Nat.lt_succ_r, weight_le_length. }
  rewrite H. cbn [fst].
  apply (loop_taken_first _ _ _ [] w) in H; auto;
    try (cbn; rewrite drop_nil; constructor).
  destruct H as (items' & -> & He & Hok'). eauto.
Qed.

Lemma untaken_ok w : Forall (item_in ts) (map Orig w).
Proof.
  apply Forall_forall. intros i Hi. apply list_elem_of_In in Hi.
  apply in_map_iff in Hi. destruct Hi as (c & <- & _). exact I.
Qed.

Lemma span_open_plain cls :
  Forall (fun c => c ≠ dollar) (js cls) →
  Forall (fun c => c ≠ dollar) (span_open cls).
Proof.
  intros H. unfold span_open. rewrite Forall_app. split.
  - vm_compute. repeat constructor; discriminate.
  - constructor; [discriminate|]. rewrite Forall_app. split; [exact H|].
    repeat constructor; discriminate.
Qed.

Lemma run_rules_app rs1 rs2 str result :
  run_rules (rs1 ++ rs2) str result =
  match run_rules rs1 str result with
  | Done (str', result') => run_rules rs2 str' result'
  | Thrown => Thrown
  | OutOfFuel => OutOfFuel
  end.
Proof.
  revert str result. induction rs1 as [|[[r fl] t] rs1 IH]; intros str result.
  - reflexivity.
  - cbn [app run_rules].
    destruct (fst (rule_pure r fl t str result)) as [[str' result']| |];
      [apply IH|reflexivity|reflexivity].
Qed.

Lemma run_rules_plain rs :
  ∀ items,
    Forall (fun p =>
      global (snd (fst p)) = true ∧ nullable (fst (fst p)) = false
      ∧ first_char (snd (fst p)) (fst (fst p)) space = false
      ∧ chars (snd (fst p)) (fst (fst p)) space = false
      ∧ chars (snd (fst p)) (fst (fst p)) dollar = false
      ∧ Forall (fun c => c ≠ dollar) (before (snd p))
      ∧ Forall (fun c => c ≠ dollar) (after (snd p))
      ∧ In (snd p) ts) rs →
    Forall (item_in ts) items →
    ∃ items',
      run_rules rs (scan_of items) (result_of items)
      = Done (scan_of items', result_of items')
      ∧ erase_of items' = erase_of items
      ∧ Forall (item_in ts) items'.
Proof.
  induction rs as [|[[r fl] t] rs IH]; intros items Hrs Hok.
  - exists items. auto.
  - apply Forall_cons in Hrs as [Hr Hrs]. cbn [fst snd] in Hr.
    destruct Hr as (Hg & Hn & Hf & Hsp & Hdl & Hb & Ha & Hin).
    destruct (rule_taken_plain r fl t items) as (items1 & H1 & He1 & Hok1);
      auto.
    cbn [run_rules]. rewrite H1.
    destruct (IH items1 Hrs Hok1) as (items2 & H2 & He2 & Hok2).
    exists items2. split; [exact H2|]. split; [congruence|exact Hok2].
Qed.

(** A pattern whose matches all hold the character [c] finds nothing when
    [c] is not in the text. *)
Lemma no_match_without fl r (c : N) items :
  c ≠ space →
  (∀ s i m, search fl r s i = Some m → ∃ t1 t2, matched m = t1 ++ c :: t2) →
  Forall (item_in ts) items →
  Forall (fun d => d ≠ c) (erase_of items) →
  has_match fl r (scan_of items) = false.
Proof.
  intros Hc Hhas Hok Hno. unfold has_match.
  destruct (search fl r (scan_of items) 0) as [m|] eqn:Hs; [|reflexivity].
  exfalso. pose proof (search_found _ _ _ _ _ Hs) as (a & b & HT & _).
  destruct (Hhas _ _ _ Hs) as (t1 & t2 & Hm). rewrite Hm in HT.
  destruct (locate_match items (a ++ t1) [c] (t2 ++ b))
    as (I1 & I2 & -> & _ & _).
  - discriminate.
  - repeat constructor. exact Hc.
  - exact Hok.
  - rewrite HT, <- !app_assoc. reflexivity.
  - rewrite !erase_of_app, !Forall_app in Hno.
    destruct Hno as (_ & Hno & _). cbn in Hno.
    apply Forall_cons in Hno as [Hno _]. contradiction.
Qed.

(** The two comment rules on a text without a dollar that does not have
    both [/*] and [//] in it. *)
Lemma comments_taken T :
  In (tpl_span "comment") ts →
  Forall (fun c => c ≠ dollar) T →
  includes T (js "/*") = false ∨ includes T (js "//") = false →
  ∃ items,
    run_rules (take 2 rules) T T = Done (scan_of items, result_of items)
    ∧ erase_of items = T ∧ Forall (item_in ts) items.
Proof.
  intros Hin Hd Hc. cbn [take rules run_rules]. destruct Hc as [Hc|Hc].
  - destruct (rule_taken_first re_line_comment flags_gm (tpl_span "comment") T)
      as (items & -> & He & Hok);
      [reflexivity|reflexivity|reflexivity|exact Hd|plain|plain|exact Hin|].
    cbv beta iota. rewrite rule_pure_no_match
      by (apply no_block_comment; [exact Hok | rewrite He; exact Hc]).
    eauto.
  - rewrite rule_pure_no_match by (apply no_line_comment, Hc).
    cbv beta iota.
    destruct (rule_taken_first re_block_comment flags_gms (tpl_span "comment") T)
      as (items & -> & He & Hok);
      [reflexivity|reflexivity|reflexivity|exact Hd|plain|plain|exact Hin|].
    eauto.
Qed.

(** The two comment rules on a text with neither [/*] nor [//] in it. *)
Lemma comments_absent T :
  includes T (js "/*") = false → includes T (js "//") = false →
  run_rules (take 2 rules) T T
  = Done (scan_of (map Orig T), result_of (map Orig T)).
Proof.
  intros Hb Hl. cbn [take rules run_rules].
  rewrite rule_pure_no_match by (apply no_line_comment, Hl).
  cbv beta iota.
  rewrite <- (scan_of_untaken T) at 1.
  rewrite rule_pure_no_match.
  - rewrite scan_of_untaken, result_of_untaken. reflexivity.
  - apply no_block_comment; [apply untaken_ok|].
    rewrite erase_of_untaken. exact Hb.
Qed.

End Pieces.

(** Rules that find nothing leave both buffers alone. *)
Lemma run_rules_idle rs str result :
  Forall (fun p => has_match (snd (fst p)) (fst (fst p)) str = false) rs →
  run_rules rs str result = Done (str, result).
Proof.
  induction 1 as [|[[r fl] t] rs Hr _ IH]; [reflexivity|].
  cbn [run_rules]. cbn [fst snd] in Hr.
  rewrite rule_pure_no_match by exact Hr. exact IH.
Qed.

(** A pattern that ends with a literal character matches text that ends
    with it. *)
Lemma search_last_literal fl (r : Regex) (c : N) :
  ∀ s i m,
    search fl (Seq r (Atom (Lit c))) s i = Some m →
    ∃ t, matched m = t ++ [c].
Proof.
  induction s as [|d s IH]; intros i m H; rewrite search_unfold in H.
  - destruct (matcher fl _ [] Some) as [rest|] eqn:Hm; [|discriminate].
    exfalso. cbn [matcher] in Hm. apply matcher_chars in Hm.
    destruct Hm as (pre & s' & Heq & Hk & _).
    symmetry in Heq. apply app_eq_nil in Heq as [_ ->]. discriminate Hk.
  - destruct (matcher fl _ (d :: s) Some) as [rest|] eqn:Hm.
    + injection H as <-. cbn [matcher] in Hm. apply matcher_chars in Hm.
      destruct Hm as (pre & s' & Heq & Hk & _).
      destruct s' as [|c' s'']; [discriminate Hk|].
      cbn [char_matches] in Hk.
      destruct (code_eqb c' c) eqn:E; [|discriminate Hk].
      injection Hk as ->. apply N.eqb_eq in E. subst c'.
      exists pre. cbn [matched].
      apply matched_is_consumed_cons. rewrite Heq, <- app_assoc. reflexivity.
    + eapply IH; eauto.
Qed.

(** X4.  On a text without a dollar that has no [/*] or no [//] in it,
    [encode] only wraps: the trimmed text can be cut into pieces, each
    either a character left as it is or a piece that is not empty and is
    wrapped by the template of one of the rules, such that the value of
    [encode] is the pieces in order with the wrappers around the taken
    ones.  No character is lost, changed, moved or taken by two rules. *)
Theorem encode_wraps_pieces :
  ∀ s,
    Forall (fun c => c ≠ dollar) (trim s) →
    includes (trim s) (js "/*") = false
    ∨ includes (trim s) (js "//") = false →
    ∃ items,
      (∀ w, fst (encode s w) = Done (result_of items))
      ∧ erase_of items = trim s
      ∧ Forall item_ok items.
Proof.
  intros s Hd Hc. set (T := trim s) in *.
  destruct (comments_taken (map snd rules) T) as (items2 & H2 & He2 & Hok2);
    [a_rule|exact Hd|exact Hc|].
  destruct (run_rules_plain (map snd rules) (drop 2 rules) items2)
    as (items & H & He & Hok).
  { cbn [drop rules]. repeat (constructor; [cbn [fst snd];
      repeat split; first [reflexivity | plain | a_rule]|]).
    constructor. }
  { exact Hok2. }
  exists items. split; [|split; [congruence|exact Hok]].
  intros w. rewrite encode_any_world, encode_run_rules. fold T.
  rewrite <- (take_drop 2 rules), run_rules_app, H2, H. reflexivity.
Qed.

(** A call, a radix literal, a number and a line comment. *)
Lemma encode_wraps_pieces_witness :
  ∃ items,
    (∀ w, fst (encode (js " f(0xA) + 1 // a + b ") w) = Done (result_of items))
    ∧ erase_of items = js "f(0xA) + 1 // a + b"
    ∧ Forall item_ok items.
Proof.
  apply (encode_wraps_pieces (js " f(0xA) + 1 // a + b ")).
  - vm_compute. repeat constructor; discriminate.
  - left. reflexivity.
Defined.

(** X9.  A dollar outside a comment does no harm: on a text that has
    neither [/*] nor [//] in it, whatever else it holds, [encode] only
    wraps, in the sense of X4. *)
Theorem encode_wraps_pieces_without_comments :
  ∀ s,
    includes (trim s) (js "/*") = false →
    includes (trim s) (js "//") = false →
    ∃ items,
      (∀ w, fst (encode s w) = Done (result_of items))
      ∧ erase_of items = trim s
      ∧ Forall item_ok items.
Proof.
  intros s Hb Hl. set (T := trim s) in *.
  destruct (run_rules_plain (map snd rules) (drop 2 rules) (map Orig T))
    as (items & H & He & Hok).
  { cbn [drop rules]. repeat (constructor; [cbn [fst snd];
      repeat split; first [reflexivity | plain | a_rule]|]).
    constructor. }
  { apply untaken_ok. }
  exists items. split; [|split; [|exact Hok]].
  - intros w. rewrite encode_any_world, encode_run_rules. fold T.
    rewrite <- (take_drop 2 rules), run_rules_app.
    rewrite (comments_absent (map snd rules) T Hb Hl), H. reflexivity.
  - rewrite He. apply erase_of_untaken.
Qed.

(** A price and a sum. *)
Lemma encode_wraps_pieces_without_comments_witness :
  ∃ items,
    (∀ w, fst (encode (js "$1,000.00 == max(a, 0b1)") w) = Done (result_of items))
    ∧ erase_of items = js "$1,000.00 == max(a, 0b1)"
    ∧ Forall item_ok items.
Proof.
  apply (encode_wraps_pieces_without_comments (js "$1,000.00 == max(a, 0b1)"));
    reflexivity.
Defined.

(** X10.  Without parentheses every wrapper is a whole span.  On a text
    as in X4 that holds neither [(] nor [)], the value of [encode] is the
    pieces of the trimmed text in order, each either one character left as
    it was or a piece between an opening tag of class comment, radix,
    decorator or data and a closing tag: neither the template of the call
    head, which has no closing tag, nor the one of the close parenthesis,
    which has no opening tag, is used.  Markup that stands in the text
    itself is text of a piece like any other and is not looked at. *)
Theorem encode_spans_whole_without_parens :
  ∀ s,
    Forall (fun c => c ≠ dollar ∧ c ≠ 40%N ∧ c ≠ 41%N) (trim s) →
    includes (trim s) (js "/*") = false
    ∨ includes (trim s) (js "//") = false →
    ∃ items,
      (∀ w, fst (encode s w) = Done (result_of items))
      ∧ erase_of items = trim s
      ∧ Forall (item_in span_templates) items.
Proof.
  intros s Hd Hc. set (T := trim s) in *.
  destruct (comments_taken span_templates T) as (items2 & H2 & He2 & Hok2);
    [a_rule| |exact Hc|].
  { eapply Forall_impl; [exact Hd|]. tauto. }
  destruct (run_rules_plain span_templates (take 2 (drop 2 rules)) items2)
    as (items4 & H4 & He4 & Hok4).
  { cbn [take drop rules]. repeat (constructor; [cbn [fst snd];
      repeat split; first [reflexivity | plain | a_rule]|]).
    constructor. }
  { exact Hok2. }
  assert (H5 : has_match flags_gm re_call_head (scan_of items4) = false).
  { apply (no_match_without span_templates _ _ 40%N); [discriminate| |exact Hok4|].
    - intros s0 i m Hs. apply search_last_literal in Hs.
      destruct Hs as [t ->]. eauto.
    - rewrite He4, He2. eapply Forall_impl; [exact Hd|]. tauto. }
  assert (H6 : has_match flags_gm re_close_paren (scan_of items4) = false).
  { apply (no_match_without span_templates _ _ 41%N); [discriminate| |exact Hok4|].
    - intros s0 i m Hs. apply search_atom in Hs.
      destruct Hs as (c & -> & Hcm). apply N.eqb_eq in Hcm. subst c.
      exists [], []. reflexivity.
    - rewrite He4, He2. eapply Forall_impl; [exact Hd|]. tauto. }
  destruct (run_rules_plain span_templates (drop 6 rules) items4)
    as (items & H7 & He7 & Hok7).
  { cbn [drop rules]. repeat (constructor; [cbn [fst snd];
      repeat split; first [reflexivity | plain | a_rule]|]).
    constructor. }
  { exact Hok4. }
  exists items. split; [|split; [congruence|exact Hok7]].
  intros w. rewrite encode_any_world, encode_run_rules. fold T.
  change rules with (take 2 rules ++ take 2 (drop 2 rules)
                     ++ take 2 (drop 4 rules) ++ drop 6 rules).
  rewrite run_rules_app, H2, run_rules_app, H4, run_rules_app.
  rewrite run_rules_idle
    by (cbn [take drop rules]; repeat constructor; assumption).
  rewrite H7. reflexivity.
Qed.

(** Two comments, a radix literal, a decorator and a number. *)
Lemma encode_spans_whole_without_parens_witness :
  ∃ items,
    (∀ w, fst (encode (js "255 @hex // 0xFF" ++ [10%N] ++ js "0xF & 1") w)
          = Done (result_of items))
    ∧ erase_of items = js "255 @hex // 0xFF" ++ [10%N] ++ js "0xF & 1"
    ∧ Forall (item_in span_templates) items.
Proof.
  apply (encode_spans_whole_without_parens
           (js "255 @hex // 0xFF" ++ [10%N] ++ js "0xF & 1")).
  - vm_compute. repeat constructor; discriminate.
  - left. reflexivity.
Defined.
